(** * rsbuild-plugin-vfd: the class-component classifier and the toNative rewriter

    A shallow embedding of [src/ts/plugin.ts]: the preflight filter
    [passesPreflight], the confidence classifier [exportsClassComponent] and
    the transform handler registered by [pluginVfd], together with the part of
    the ECMAScript string and regular-expression semantics these three
    functions rely on ([String.prototype.includes], [String.prototype.match],
    [String.prototype.replace] with a global pattern). *)

From Stdlib Require Import String Ascii.
From Stdlib Require Import List NArith ZArith Bool Lia.
Import ListNotations.

Set Implicit Arguments.

(** ** Texts

    A JavaScript string is a sequence of UTF-16 code units. *)

Definition code_unit := N.
Definition text := list code_unit.

(** An ASCII literal of the source as a text. *)
Definition js (s : string) : text :=
  List.map N_of_ascii (list_ascii_of_string s).

Definition dquote : code_unit := 34%N.
Definition squote : code_unit := 39%N.
Definition LF : code_unit := 10%N.

Module JS.

(** *** String.prototype.includes *)

Fixpoint starts_with (p s : text) : bool :=
  match p, s with
  | [], _ => true
  | _ :: _, [] => false
  | a :: p', c :: s' => N.eqb a c && starts_with p' s'
  end.

Fixpoint includes (s sub : text) : bool :=
  starts_with sub s ||
  match s with
  | [] => false
  | _ :: s' => includes s' sub
  end.

(** *** Character sets of the pattern language *)

Open Scope N_scope.

(** [\s]: WhiteSpace and LineTerminator code points. *)
Definition is_space (c : code_unit) : bool :=
  existsb (N.eqb c)
    [9; 10; 11; 12; 13; 32; 160; 5760; 8232; 8233; 8239; 8287; 12288; 65279]
  || ((8192 <=? c) && (c <=? 8202)).

Definition is_line_terminator (c : code_unit) : bool :=
  existsb (N.eqb c) [10; 13; 8232; 8233].

Inductive cclass :=
| ClsSpace                                (* \s *)
| ClsDot                                  (* .  (no s flag) *)
| ClsRanges (rs : list (code_unit * code_unit)).   (* [a-bc-d...] *)

Definition in_class (cl : cclass) (c : code_unit) : bool :=
  match cl with
  | ClsSpace => is_space c
  | ClsDot => negb (is_line_terminator c)
  | ClsRanges rs => existsb (fun r => (fst r <=? c) && (c <=? snd r)) rs
  end.

(** Canonicalize of a pattern without the u flag: the code unit's upper-case
    form.  Every pattern character of the source is ASCII, and Canonicalize
    never sends a unit at or above 128 to one below 128, so units outside
    ASCII are left where they are. *)
Definition canonicalize (c : code_unit) : code_unit :=
  if (97 <=? c) && (c <=? 122) then c - 32 else c.

(** The other ASCII case of a letter. *)
Definition swap_case (c : code_unit) : code_unit :=
  if (97 <=? c) && (c <=? 122) then c - 32
  else if (65 <=? c) && (c <=? 90) then c + 32
  else c.

(** CharacterSetMatcher: without the i flag plain membership; with it, some
    member of the set has the same canonical form as the input unit (see
    [class_mem_ignore_case]). *)
Definition class_mem (ic : bool) (cl : cclass) (c : code_unit) : bool :=
  in_class cl c || (ic && in_class cl (swap_case c)).

Definition char_eq (ic : bool) (a c : code_unit) : bool :=
  if ic then canonicalize a =? canonicalize c else a =? c.

Close Scope N_scope.

(** *** Patterns *)

Inductive regex :=
| Empty
| AtEnd                       (* $  (no m flag) *)
| Chr (a : code_unit)
| Cls (cl : cclass)
| Cat (r1 r2 : regex)
| Star (cl : cclass)          (* greedy  X*  over a one-unit atom *)
| Plus (cl : cclass)          (* greedy  X+  over a one-unit atom *)
| NotAhead (r : regex)        (* (?! r) *)
| Group (n : nat) (r : regex).  (* n-th capturing parentheses *)

Infix ">>" := Cat (at level 61, right associativity).

(** A run of pattern characters. *)
Definition lits (w : text) : regex :=
  fold_right (fun a r => Chr a >> r) Empty w.

Definition lit (s : string) : regex := lits (js s).

Record RegExp := mkRegExp {
  source : regex;
  ignoreCase : bool;
  global : bool
}.

(** *** The backtracking matcher

    A match state is the input that is still ahead and the captures so far;
    a matcher takes a state and a continuation, as in the language
    specification. *)

Record state := mkState {
  ahead : text;
  captures : list (nat * text)
}.

Definition cont := state -> option state.

(** The units consumed between two states of one run. *)
Definition consumed (st st' : state) : text :=
  firstn (length (ahead st) - length (ahead st')) (ahead st).

Fixpoint star (p : code_unit -> bool) (cs : list (nat * text)) (k : cont)
    (s : text) : option state :=
  match s with
  | c :: s' =>
      if p c then
        match star p cs k s' with
        | Some r => Some r
        | None => k (mkState s cs)
        end
      else k (mkState s cs)
  | [] => k (mkState [] cs)
  end.

Fixpoint m (ic : bool) (r : regex) (st : state) (k : cont) : option state :=
  match r with
  | Empty => k st
  | AtEnd =>
      match ahead st with
      | [] => k st
      | _ :: _ => None
      end
  | Chr a =>
      match ahead st with
      | c :: s' => if char_eq ic a c then k (mkState s' (captures st)) else None
      | [] => None
      end
  | Cls cl =>
      match ahead st with
      | c :: s' => if class_mem ic cl c then k (mkState s' (captures st)) else None
      | [] => None
      end
  | Cat r1 r2 => m ic r1 st (fun st' => m ic r2 st' k)
  | Star cl => star (class_mem ic cl) (captures st) k (ahead st)
  | Plus cl =>
      match ahead st with
      | c :: s' =>
          if class_mem ic cl c
          then star (class_mem ic cl) (captures st) k s'
          else None
      | [] => None
      end
  | NotAhead r' =>
      match m ic r' st Some with
      | Some _ => None
      | None => k st
      end
  | Group n r' =>
      m ic r' st
        (fun st' => k (mkState (ahead st') ((n, consumed st st') :: captures st')))
  end.

(** One attempt at the current position. *)
Definition match_here (re : RegExp) (s : text) : option state :=
  m (ignoreCase re) (source re) (mkState s []) Some.

(** The result of RegExpBuiltinExec on a text: the units skipped before the
    match, the matched units, the state after it. *)
Record exec_result := mkExec {
  skipped : text;
  matched : text;
  after : state
}.

(** RegExpBuiltinExec from the start of [s]: the first position, left to
    right, at which the pattern matches (the end of the text included). *)
Fixpoint exec (re : RegExp) (s : text) : option exec_result :=
  match match_here re s with
  | Some st => Some (mkExec [] (consumed (mkState s []) st) st)
  | None =>
      match s with
      | [] => None
      | c :: s' =>
          match exec re s' with
          | Some r => Some (mkExec (c :: skipped r) (matched r) (after r))
          | None => None
          end
      end
  end.

Fixpoint group_of (n : nat) (cs : list (nat * text)) : option text :=
  match cs with
  | [] => None
  | (i, w) :: cs' => if Nat.eqb i n then Some w else group_of n cs'
  end.

(** *** String.prototype.match with a pattern that is not global

    The result array holds the matched text and one entry per capturing
    group, [None] for a group that took no part in the match; a result of
    [None] is JavaScript's [null]. *)
Fixpoint groups (r : regex) : nat :=
  match r with
  | Cat r1 r2 => groups r1 + groups r2
  | NotAhead r' => groups r'
  | Group _ r' => S (groups r')
  | _ => 0
  end.

Definition match_ (s : text) (re : RegExp) : option (list (option text)) :=
  match exec re s with
  | Some r =>
      Some (Some (matched r)
              :: List.map (fun i => group_of i (captures (after r)))
                   (seq 1 (groups (source re))))
  | None => None
  end.

(** [x ?? []] *)
Definition or_empty {A} (x : option (list A)) : list A :=
  match x with Some l => l | None => [] end.

(** *** String.prototype.replace with a pattern

    A replacement template is a list of literal pieces and group
    references.  A pattern without the g flag is replaced at its first match
    only. *)
Inductive piece :=
| Text (w : text)
| Ref (n : nat).       (* $n *)

Definition substitute (tpl : list piece) (cs : list (nat * text)) : text :=
  flat_map (fun p =>
    match p with
    | Text w => w
    | Ref n => match group_of n cs with Some w => w | None => [] end
    end) tpl.

(** The loop of RegExp.prototype[@@replace]: each round runs exec from
    lastIndex; an empty match advances lastIndex by one unit. *)
Fixpoint replace_loop (fuel : nat) (re : RegExp) (tpl : list piece)
    (s : text) : text :=
  match fuel with
  | O => s
  | S fuel' =>
      match exec re s with
      | None => s
      | Some r =>
          let out := skipped r ++ substitute tpl (captures (after r)) in
          match matched r, ahead (after r) with
          | [], [] => out
          | [], c :: s' => out ++ c :: replace_loop fuel' re tpl s'
          | _ :: _, s' => out ++ replace_loop fuel' re tpl s'
          end
      end
  end.

Definition replace (s : text) (re : RegExp) (tpl : list piece) : text :=
  if global re then replace_loop (S (length s)) re tpl s
  else
    match exec re s with
    | None => s
    | Some r =>
        skipped r ++ substitute tpl (captures (after r)) ++ ahead (after r)
    end.

End JS.

Import JS.

(** ** The plugin *)

(** *** The patterns of the source *)

Definition quotes : cclass := ClsRanges [(squote, squote); (dquote, dquote)].
Definition letters : cclass := ClsRanges [(65, 90); (97, 122)]%N.
Definition capitals : cclass := ClsRanges [(65, 90)]%N.

(** [/from\s+['"]vue-facing-decorator['"]/] *)
Definition re_import : RegExp :=
  mkRegExp
    (lit "from" >> Plus ClsSpace >> Cls quotes >> lit "vue-facing-decorator"
       >> Cls quotes)
    false false.

(** [/class.*extends\sVue/] *)
Definition re_extends_vue : RegExp :=
  mkRegExp
    (lit "class" >> Star ClsDot >> lit "extends" >> Cls ClsSpace >> lit "Vue")
    false false.

(** [/class.*extends/] *)
Definition re_extends : RegExp :=
  mkRegExp (lit "class" >> Star ClsDot >> lit "extends") false false.

(** [/export\sdefault\s(?!\{)/] *)
Definition re_export_not_object : RegExp :=
  mkRegExp
    (lit "export" >> Cls ClsSpace >> lit "default" >> Cls ClsSpace
       >> NotAhead (lit "{"))
    false false.

(** [/export\sdefault\s(?!class)(?![A-Z])/] *)
Definition re_export_not_capital : RegExp :=
  mkRegExp
    (lit "export" >> Cls ClsSpace >> lit "default" >> Cls ClsSpace
       >> NotAhead (lit "class") >> NotAhead (Cls capitals))
    false false.

(** [/const _sfc_main = (L);/ig] where [L] is [[A-Za-z]*], the starred
    class of ASCII letters. *)
Definition re_sfc_main : RegExp :=
  mkRegExp
    (lit "const _sfc_main = " >> Group 1 (Star letters) >> lit ";")
    true true.

(** ["const _sfc_main = toNative($1);"] *)
Definition sfc_main_template : list piece :=
  [Text (js "const _sfc_main = toNative("); Ref 1; Text (js ");")].

(** *** passesPreflight *)

Definition passesPreflight (code : text) : bool :=
  negb (includes code (js "type=style"))
  && negb (includes code (js "type=template"))
  && negb (includes code (js "toNative")).

(** *** exportsClassComponent

    The function is embedded with the value of [confidence] kept at each of
    its two return statements: [EarlyReturn] is the return inside the
    [confidence > 50] gate, [FinalReturn] the last statement, which also
    records [confidence] at the gate and after the first of the two late
    checks. *)

Inductive run :=
| EarlyReturn (confidence : Z)
| FinalReturn (at_gate after_first_check confidence : Z).

Definition found (code : text) (re : RegExp) : bool :=
  (0 <? length (or_empty (match_ code re)))%nat.

Open Scope Z_scope.

Definition exportsClassComponent_run (code : text) : run :=
  let confidence := 0 in
  let confidence :=
    if found code re_import then confidence + 40 else confidence in
  let confidence :=
    if found code re_extends_vue then confidence + 40
    else if found code re_extends then confidence + 10
    else confidence in
  if confidence >? 50 then EarlyReturn confidence
  else
    let at_gate := confidence in
    let confidence :=
      if found code re_export_not_object then confidence + 1 else confidence in
    let after_first_check := confidence in
    let confidence :=
      if found code re_export_not_capital then confidence - 1 else confidence in
    FinalReturn at_gate after_first_check confidence.

Definition verdict (r : run) : bool :=
  match r with
  | EarlyReturn _ => true
  | FinalReturn _ _ confidence => confidence >? 50
  end.

Definition exportsClassComponent (code : text) : bool :=
  verdict (exportsClassComponent_run code).

Close Scope Z_scope.

(** *** pluginVfd *)

Record PluginVfdOptions := mkOptions {
  isClassComponent : text -> bool
}.

Definition default_options : PluginVfdOptions :=
  mkOptions (fun code => passesPreflight code && exportsClassComponent code).

Definition vueFacingImport : text :=
  [LF] ++ js "import {toNative} from " ++ [dquote] ++ js "vue-facing-decorator"
    ++ [dquote] ++ js ";" ++ [LF].

Definition transformedCode (code : text) : text :=
  replace code re_sfc_main sfc_main_template.

(** The handler passed to [api.transform]. *)
Definition handler (options : PluginVfdOptions) (code : text) : text :=
  if negb (isClassComponent options code) then code
  else vueFacingImport ++ transformedCode code.

Inductive enforce_order := Pre | Post.

(** What [setup] registers with [api.transform]: the descriptor and the
    handler. *)
Record RsbuildPlugin := mkPlugin {
  name : string;
  test : RegExp;
  enforce : enforce_order;
  transform : text -> text
}.

(** [/\.vue$/] *)
Definition re_vue_file : RegExp := mkRegExp (lit ".vue" >> AtEnd) false false.

(** [pluginVfd(options = default)]: [None] is a call without the argument. *)
Definition pluginVfd (options : option PluginVfdOptions) : RsbuildPlugin :=
  let options :=
    match options with Some o => o | None => default_options end in
  mkPlugin "plugin-vfd" re_vue_file Post (handler options).

(** The plugin as [pluginVfd()] builds it, run on one file. *)
Definition pipeline (code : text) : text :=
  transform (pluginVfd None) code.

(** * The vocabulary of the statements

    The properties below speak about texts, not about the matcher: what it
    means for a run of units to occur in a text, what a pattern says about
    the text it is tried on, and what the rewriter is to produce. *)

(** ** Occurrences and matches *)

(** [sub] occurs in [s] as a run of consecutive units. *)
Definition Occurs (sub s : text) : Prop :=
  exists pre post, s = pre ++ sub ++ post.

(** Pointwise comparison of a run of pattern characters with input units. *)
Fixpoint eq_units (ic : bool) (w k : text) : bool :=
  match w, k with
  | [], [] => true
  | a :: w', c :: k' => char_eq ic a c && eq_units ic w' k'
  | _, _ => false
  end.

(** [Matches ic r st st']: some way of matching [r] leads from [st] to [st']
    (no priorities between the alternatives of a star). *)
Fixpoint Matches (ic : bool) (r : regex) (st st' : state) : Prop :=
  match r with
  | Empty => st' = st
  | AtEnd => st' = st /\ ahead st = []
  | Chr a =>
      exists c, ahead st = c :: ahead st' /\ char_eq ic a c = true
                /\ captures st' = captures st
  | Cls cl =>
      exists c, ahead st = c :: ahead st' /\ class_mem ic cl c = true
                /\ captures st' = captures st
  | Cat r1 r2 => exists mid, Matches ic r1 st mid /\ Matches ic r2 mid st'
  | Star cl =>
      exists w, ahead st = w ++ ahead st'
                /\ forallb (class_mem ic cl) w = true
                /\ captures st' = captures st
  | Plus cl =>
      exists c w, ahead st = c :: w ++ ahead st'
                /\ class_mem ic cl c = true
                /\ forallb (class_mem ic cl) w = true
                /\ captures st' = captures st
  | NotAhead r' => st' = st /\ forall x, ~ Matches ic r' st x
  | Group n r' =>
      exists mid, Matches ic r' st mid
                /\ st' = mkState (ahead mid) ((n, consumed st mid) :: captures mid)
  end.

(** No attempt that starts inside [pre] succeeds on [pre ++ rest]. *)
Definition unmatched_before (re : RegExp) (pre rest : text) : Prop :=
  forall p1 c p2, pre = p1 ++ c :: p2 -> match_here re (c :: p2 ++ rest) = None.

(** ** What the classifier looks for *)

(** The text holds [from], white space, a quote, the library's name and a
    quote. *)
Definition imports_library (code : text) : Prop :=
  exists pre ws q1 q2 post,
    code = pre ++ js "from" ++ ws ++ q1 :: js "vue-facing-decorator" ++ q2 :: post
    /\ ws <> [] /\ forallb is_space ws = true
    /\ in_class quotes q1 = true /\ in_class quotes q2 = true.

(** The text holds [class], then on the same line [extends], one white space
    and [Vue]. *)
Definition extends_Vue (code : text) : Prop :=
  exists pre mid w post,
    code = pre ++ js "class" ++ mid ++ js "extends" ++ w :: js "Vue" ++ post
    /\ forallb (fun c => negb (is_line_terminator c)) mid = true
    /\ is_space w = true.

(** The text holds [export], one white space, [default], one white space, and
    what follows does not start with an opening brace. *)
Definition exports_not_object (code : text) : Prop :=
  exists pre w1 w2 post,
    code = pre ++ js "export" ++ w1 :: js "default" ++ w2 :: post
    /\ is_space w1 = true /\ is_space w2 = true
    /\ forall t, post <> js "{" ++ t.

(** The text holds [class] and, further on the same line, [extends]. *)
Definition extends_something (code : text) : Prop :=
  exists pre mid post,
    code = pre ++ js "class" ++ mid ++ js "extends" ++ post
    /\ forallb (fun c => negb (is_line_terminator c)) mid = true.

(** The text holds [export], one white space, [default], one white space, and
    what follows starts neither with [class] nor with a capital letter. *)
Definition exports_not_capital (code : text) : Prop :=
  exists pre w1 w2 post,
    code = pre ++ js "export" ++ w1 :: js "default" ++ w2 :: post
    /\ is_space w1 = true /\ is_space w2 = true
    /\ (forall t, post <> js "class" ++ t)
    /\ (forall c t, post = c :: t -> in_class capitals c = false).

(** The value of [confidence] when the function returns. *)
Definition confidence_at_return (r : run) : Z :=
  match r with
  | EarlyReturn confidence => confidence
  | FinalReturn _ _ confidence => confidence
  end.

(** The first example of the source's comments: the library import, a class
    that extends Vue, the class exported by default. *)
Definition case_A : text :=
  js "import { Component, Vue } from " ++ [dquote] ++ js "vue-facing-decorator"
    ++ [dquote] ++ js ";" ++ [LF]
    ++ js "class Foo extends Vue {}" ++ [LF]
    ++ js "export default Foo;".

(** The edge of the source's comments: the library import, a class that
    extends something else, a lower-case constant exported by default. *)
Definition case_B : text :=
  js "import { Component } from " ++ [dquote] ++ js "vue-facing-decorator"
    ++ [dquote] ++ js ";" ++ [LF]
    ++ js "class Foo extends Base {}" ++ [LF]
    ++ js "const exampleComponent = {};" ++ [LF]
    ++ js "export default exampleComponent;".

(** A class declaration exported by default. *)
Definition default_exported_class : text := js "export default class Foo {}".

(** ** What the rewriter is to do

    [Rewritten s out]: going through [s] from the left, every assignment met
    is replaced by its wrapped form and everything else is kept. *)

(** The head of the generated assignment, and the unit that ends it. *)
Definition sfc_prefix : text := js "const _sfc_main = ".
Definition semicolon : code_unit := 59%N.

(** [k] is [const _sfc_main = ] up to the case of its letters. *)
Definition assignment_head (k : text) : Prop :=
  map canonicalize k = map canonicalize sfc_prefix.

(** [X] is a run of ASCII letters, possibly empty. *)
Definition word (X : text) : Prop := forallb (in_class letters) X = true.

(** [s] starts with an assignment of the word [X], and [t] follows it. *)
Definition starts_assignment (s X t : text) : Prop :=
  exists k, assignment_head k /\ word X /\ s = k ++ X ++ semicolon :: t.

(** What the replacement template produces for the captured word [X]. *)
Definition wrapped (X : text) : text :=
  js "const _sfc_main = toNative(" ++ X ++ js ");".

(** The head in capitals, [CONST _SFC_MAIN = ]. *)
Definition sfc_prefix_canonical : text :=
  Eval cbv in map canonicalize sfc_prefix.

(** No assignment starts anywhere in [s]. *)
Definition no_assignment (s : text) : Prop :=
  forall pre post X t, s = pre ++ post -> ~ starts_assignment post X t.

(** In [pre ++ post] no assignment starts inside [pre]. *)
Definition first_at (pre post : text) : Prop :=
  forall p1 c p2 X t,
    pre = p1 ++ c :: p2 -> ~ starts_assignment (c :: p2 ++ post) X t.

Inductive Rewritten : text -> text -> Prop :=
| Rewritten_none s :
    no_assignment s -> Rewritten s s
| Rewritten_first pre post X t out :
    first_at pre post ->
    starts_assignment post X t ->
    Rewritten t out ->
    Rewritten (pre ++ post) (pre ++ wrapped X ++ out).

(** A caller's predicate that accepts every text. *)
Definition accept_all : PluginVfdOptions := mkOptions (fun _ => true).

(** ** Further vocabulary *)

(** The four checks of [exportsClassComponent] with the early return taken
    out: the score when every check is evaluated. *)
Definition confidence_without_gate (code : text) : Z :=
  (let confidence := 0 in
   let confidence :=
     if found code re_import then confidence + 40 else confidence in
   let confidence :=
     if found code re_extends_vue then confidence + 40
     else if found code re_extends then confidence + 10
     else confidence in
   let confidence :=
     if found code re_export_not_object then confidence + 1 else confidence in
   let confidence :=
     if found code re_export_not_capital then confidence - 1 else confidence in
   confidence)%Z.

(** The second example of the source's comments: the library import, a class
    that extends a base component, the class exported by default. *)
Definition case_b_class : text :=
  js "import { Component } from " ++ [dquote] ++ js "vue-facing-decorator"
    ++ [dquote] ++ js ";" ++ [LF]
    ++ js "class Foo extends ExampleBaseComponent {}" ++ [LF]
    ++ js "export default Foo;".

(** An options-style component. *)
Definition object_default : text := js "export default {}".

(** A class-style component whose class name holds a digit, as the Vue
    loader hands it over: the library import, the class, and the generated
    assignment of the class to [_sfc_main]. *)
Definition case_Step2 : text :=
  js "import { Component, Vue } from " ++ [dquote] ++ js "vue-facing-decorator"
    ++ [dquote] ++ js ";" ++ [LF]
    ++ js "class Step2 extends Vue {}" ++ [LF]
    ++ js "const _sfc_main = Step2;".

(** The library import, a class that extends Vue, and an options-style
    default export. *)
Definition case_A_with_object : text :=
  js "import { Component, Vue } from " ++ [dquote] ++ js "vue-facing-decorator"
    ++ [dquote] ++ js ";" ++ [LF]
    ++ js "class Foo extends Vue {}" ++ [LF]
    ++ object_default.

(** The three markers [passesPreflight] looks for. *)
Definition markers : list text :=
  [js "type=style"; js "type=template"; js "toNative"].

(** * The matcher *)

(** ** The backtracking matcher finds what the pattern says *)

Lemma state_eta (st : state) : mkState (ahead st) (captures st) = st.
Proof. destruct st; reflexivity. Qed.

Lemma state_ext (st st' : state) :
  ahead st = ahead st' -> captures st = captures st' -> st = st'.
Proof. destruct st, st'; simpl; intros; subst; reflexivity. Qed.

Lemma star_sound p cs k s x :
  star p cs k s = Some x ->
  exists w s', s = w ++ s' /\ forallb p w = true /\ k (mkState s' cs) = Some x.
Proof.
  revert x; induction s as [|c s IH]; simpl; intros x H.
  - exists [], []; auto.
  - destruct (p c) eqn:Hp.
    + destruct (star p cs k s) as [r|] eqn:Hs.
      * destruct (IH _ eq_refl) as (w & s' & -> & Hw & Hk).
        exists (c :: w), s'; simpl; rewrite Hp, Hw; inversion H; subst; auto.
      * exists [], (c :: s); auto.
    + exists [], (c :: s); auto.
Qed.

Lemma star_complete p cs k w s' :
  forallb p w = true -> k (mkState s' cs) <> None ->
  star p cs k (w ++ s') <> None.
Proof.
  intros Hw Hk; induction w as [|c w IH]; simpl in *.
  - destruct s' as [|c s'']; simpl; auto.
    destruct (p c); auto. destruct (star p cs k s''); [discriminate | auto].
  - apply andb_true_iff in Hw as [Hc Hw]. rewrite Hc.
    destruct (star p cs k (w ++ s')) eqn:E; [discriminate | elim (IH Hw); reflexivity].
Qed.

Lemma m_sound_complete ic r :
  (forall st k x, m ic r st k = Some x ->
     exists st', Matches ic r st st' /\ k st' = Some x)
  /\ (forall st st' k, Matches ic r st st' -> k st' <> None ->
     m ic r st k <> None).
Proof.
  induction r as [ | |a|cl|r1 [S1 C1] r2 [S2 C2]|cl|cl|r' [S' C']|n r' [S' C']];
    simpl; split.
  - intros st k x H; eauto.
  - intros st st' k -> H; auto.
  - intros st k x H. destruct (ahead st) eqn:E; [eauto | discriminate].
  - intros st st' k [-> E] H. rewrite E; auto.
  - intros st k x H. destruct (ahead st) as [|c s'] eqn:E; [discriminate|].
    destruct (char_eq ic a c) eqn:Ec; [|discriminate].
    exists (mkState s' (captures st)); split; auto. exists c; auto.
  - intros st st' k (c & E & Ec & Ecs) H. rewrite E, Ec, <- Ecs, state_eta; auto.
  - intros st k x H. destruct (ahead st) as [|c s'] eqn:E; [discriminate|].
    destruct (class_mem ic cl c) eqn:Ec; [|discriminate].
    exists (mkState s' (captures st)); split; auto. exists c; auto.
  - intros st st' k (c & E & Ec & Ecs) H. rewrite E, Ec, <- Ecs, state_eta; auto.
  - intros st k x H. apply S1 in H as (mid & H1 & H).
    apply S2 in H as (st' & H2 & H). eauto.
  - intros st st' k (mid & H1 & H2) H.
    apply (C1 st mid); auto. apply (C2 mid st'); auto.
  - intros st k x H. apply star_sound in H as (w & s' & E & Hw & Hk).
    exists (mkState s' (captures st)); split; auto. exists w; auto.
  - intros st st' k (w & E & Hw & Ecs) H. rewrite E.
    apply star_complete; auto. rewrite <- Ecs, state_eta; auto.
  - intros st k x H. destruct (ahead st) as [|c s0] eqn:E; [discriminate|].
    destruct (class_mem ic cl c) eqn:Ec; [|discriminate].
    apply star_sound in H as (w & s' & -> & Hw & Hk).
    exists (mkState s' (captures st)); split; auto. exists c, w; auto.
  - intros st st' k (c & w & E & Ec & Hw & Ecs) H. rewrite E, Ec.
    apply star_complete; auto. rewrite <- Ecs, state_eta; auto.
  - intros st k x H. destruct (m ic r' st Some) eqn:E; [discriminate|].
    exists st; repeat split; auto.
    intros y Hy. apply (C' st y Some) in Hy; [auto | discriminate].
  - intros st st' k [-> Hno] H. destruct (m ic r' st Some) eqn:E; auto.
    apply S' in E as (y & Hy & _). elim (Hno y Hy).
  - intros st k x H. apply S' in H as (mid & Hm & Hk). eauto.
  - intros st st' k (mid & Hm & ->) H. apply (C' st mid); auto.
Qed.

Lemma m_sound ic r st k x :
  m ic r st k = Some x -> exists st', Matches ic r st st' /\ k st' = Some x.
Proof. apply m_sound_complete. Qed.

Lemma m_complete ic r st st' k :
  Matches ic r st st' -> k st' <> None -> m ic r st k <> None.
Proof. apply m_sound_complete. Qed.

(** A match only moves forward in the input. *)
Lemma Matches_suffix ic r st st' :
  Matches ic r st st' -> exists w, ahead st = w ++ ahead st'.
Proof.
  revert st st'; induction r; simpl; intros st st' H.
  - subst; exists []; auto.
  - destruct H as [-> _]; exists []; auto.
  - destruct H as (c & E & _); exists [c]; auto.
  - destruct H as (c & E & _); exists [c]; auto.
  - destruct H as (mid & H1 & H2).
    apply IHr1 in H1 as [w1 E1]; apply IHr2 in H2 as [w2 E2].
    exists (w1 ++ w2); rewrite E1, E2, app_assoc; auto.
  - destruct H as (w & E & _); eauto.
  - destruct H as (c & w & E & _); exists (c :: w); auto.
  - destruct H as [-> _]; exists []; auto.
  - destruct H as (mid & Hm & ->); simpl; eauto.
Qed.

Lemma consumed_app w s cs cs' :
  consumed (mkState (w ++ s) cs) (mkState s cs') = w.
Proof.
  unfold consumed; simpl. rewrite length_app.
  replace (length w + length s - length s) with (length w) by lia.
  rewrite firstn_app, firstn_all, Nat.sub_diag; simpl. apply app_nil_r.
Qed.

Lemma match_here_Some re s st :
  match_here re s = Some st ->
  Matches (ignoreCase re) (source re) (mkState s []) st.
Proof.
  unfold match_here; intros H. apply m_sound in H as (st' & H & E).
  inversion E; subst; auto.
Qed.

Lemma match_here_None re s :
  match_here re s = None <->
  forall st, ~ Matches (ignoreCase re) (source re) (mkState s []) st.
Proof.
  unfold match_here; split.
  - intros H st Hst. apply (m_complete _ _ _ _ Some) in Hst; [auto | discriminate].
  - intros H. destruct (m _ _ _ Some) eqn:E; auto.
    apply m_sound in E as (st' & Hst & _). elim (H _ Hst).
Qed.

(** When the pattern can match in one way only, the matcher finds it. *)
Lemma match_here_unique re s st :
  Matches (ignoreCase re) (source re) (mkState s []) st ->
  (forall st', Matches (ignoreCase re) (source re) (mkState s []) st' -> st' = st) ->
  match_here re s = Some st.
Proof.
  intros H U. destruct (match_here re s) as [y|] eqn:E.
  - apply match_here_Some in E. f_equal; auto.
  - rewrite match_here_None in E. elim (E _ H).
Qed.

(** ** Searching: exec, match and includes *)

Lemma unmatched_before_nil re rest : unmatched_before re [] rest.
Proof. intros p1 c p2 E; destruct p1; discriminate. Qed.

Lemma unmatched_before_cons re c pre rest :
  match_here re (c :: pre ++ rest) = None ->
  unmatched_before re pre rest -> unmatched_before re (c :: pre) rest.
Proof.
  intros H U [|a p1] d p2 E; simpl in E; inversion E; subst; auto.
  eapply U; eauto.
Qed.

Lemma unmatched_before_inv re c pre rest :
  unmatched_before re (c :: pre) rest ->
  match_here re (c :: pre ++ rest) = None /\ unmatched_before re pre rest.
Proof.
  intros U; split.
  - apply (U [] c pre); reflexivity.
  - intros p1 d p2 ->. apply (U (c :: p1) d p2); reflexivity.
Qed.

Lemma exec_Some re s r :
  exec re s = Some r ->
  s = skipped r ++ matched r ++ ahead (after r)
  /\ match_here re (matched r ++ ahead (after r)) = Some (after r)
  /\ unmatched_before re (skipped r) (matched r ++ ahead (after r)).
Proof.
  revert r; induction s as [|c s IH]; simpl; intros r H.
  - destruct (match_here re []) as [st|] eqn:E; [|discriminate].
    inversion H; subst; clear H; simpl.
    pose proof (match_here_Some _ _ E) as Hm.
    apply Matches_suffix in Hm as [w Hw]; simpl in Hw.
    symmetry in Hw; apply app_eq_nil in Hw as [-> Hw].
    unfold consumed; simpl; rewrite Hw; simpl.
    repeat split; auto using unmatched_before_nil.
  - destruct (match_here re (c :: s)) as [st|] eqn:E.
    + inversion H; subst; clear H; simpl.
      pose proof (match_here_Some _ _ E) as Hm.
      apply Matches_suffix in Hm as [w Hw]; simpl in Hw.
      destruct st as [s' cs]; simpl in *. rewrite Hw, consumed_app, <- Hw.
      repeat split; auto using unmatched_before_nil.
    + destruct (exec re s) as [r'|] eqn:E'; [|discriminate].
      inversion H; subst; clear H; simpl.
      destruct (IH _ eq_refl) as (Hs & Hm & Hu).
      repeat split; auto.
      * f_equal; auto.
      * apply unmatched_before_cons; auto. rewrite <- Hs; auto.
Qed.

Lemma exec_None re s :
  exec re s = None <->
  forall pre post, s = pre ++ post -> match_here re post = None.
Proof.
  induction s as [|c s IH]; simpl.
  - destruct (match_here re []) eqn:E; split; intros H; try discriminate; auto.
    + specialize (H [] [] eq_refl). congruence.
    + intros pre post Hp. symmetry in Hp; apply app_eq_nil in Hp as [_ ->]; auto.
  - destruct (match_here re (c :: s)) eqn:E.
    + split; [discriminate|]. intros H. specialize (H [] _ eq_refl). congruence.
    + destruct (exec re s) eqn:E'; split; intros H; try discriminate; auto.
      * assert (Some e = None) as X; [|discriminate]. apply IH.
        intros pre post ->. apply (H (c :: pre)); reflexivity.
      * intros [|a pre] post Hp; simpl in Hp; subst; auto.
        inversion Hp; subst. destruct IH as [IH _]. eapply IH; eauto.
Qed.

Lemma exec_first re pre rest st :
  unmatched_before re pre rest ->
  match_here re rest = Some st ->
  exec re (pre ++ rest)
  = Some (mkExec pre (consumed (mkState rest []) st) st).
Proof.
  induction pre as [|c pre IH]; simpl; intros U H.
  - destruct rest; simpl; rewrite H; reflexivity.
  - apply unmatched_before_inv in U as [H0 U]. rewrite H0, (IH U H). reflexivity.
Qed.

(** The condition [(code.match(re) ?? []).length > 0]. *)
Lemma found_exec code re : found code re = true <-> exec re code <> None.
Proof.
  unfold found, match_, or_empty. destruct (exec re code); simpl; split;
    intros H; try discriminate; auto; congruence.
Qed.

Lemma found_spec code re :
  found code re = true <->
  exists pre post st,
    code = pre ++ post
    /\ Matches (ignoreCase re) (source re) (mkState post []) st.
Proof.
  rewrite found_exec; split.
  - intros H. destruct (exec re code) as [r|] eqn:E; [|congruence].
    apply exec_Some in E as (Hs & Hm & _). apply match_here_Some in Hm.
    eauto.
  - intros (pre & post & st & -> & Hm) H. rewrite exec_None in H.
    specialize (H pre post eq_refl). rewrite match_here_None in H.
    elim (H _ Hm).
Qed.

Lemma starts_with_spec p s :
  starts_with p s = true <-> exists post, s = p ++ post.
Proof.
  revert s; induction p as [|a p IH]; intros s; simpl.
  - split; eauto.
  - destruct s as [|c s].
    + split; [discriminate | intros [post H]; discriminate].
    + rewrite andb_true_iff, N.eqb_eq, IH. split.
      * intros [-> [post ->]]; eauto.
      * intros [post H]; inversion H; eauto.
Qed.

Lemma includes_spec s sub : includes s sub = true <-> Occurs sub s.
Proof.
  unfold Occurs; induction s as [|c s IH]; simpl.
  - rewrite orb_false_r, starts_with_spec. split.
    + intros [post H]; exists [], post; auto.
    + intros (pre & post & H). symmetry in H.
      apply app_eq_nil in H as [-> H]. apply app_eq_nil in H as [-> ->].
      exists []; auto.
  - rewrite orb_true_iff, starts_with_spec, IH. split.
    + intros [[post H]|(pre & post & ->)].
      * exists [], post; auto.
      * exists (c :: pre), post; auto.
    + intros ([|a pre] & post & H); simpl in H.
      * left; eauto.
      * right; inversion H; eauto.
Qed.

Lemma includes_app_l pre s sub :
  includes pre sub = true -> includes (pre ++ s) sub = true.
Proof.
  rewrite !includes_spec. intros (a & b & ->).
  exists a, (b ++ s). rewrite <- !app_assoc; reflexivity.
Qed.

(** ** Runs of pattern characters *)

Lemma eq_units_exact w k : eq_units false w k = true <-> w = k.
Proof.
  revert k; induction w as [|a w IH]; intros [|c k]; simpl;
    try (split; [discriminate | intros H; discriminate]); [tauto|].
  rewrite andb_true_iff, N.eqb_eq, IH. split.
  - intros [-> ->]; auto.
  - intros H; inversion H; auto.
Qed.

Lemma Matches_lits ic w st st' :
  Matches ic (lits w) st st' <->
  exists k, ahead st = k ++ ahead st' /\ eq_units ic w k = true
            /\ captures st' = captures st.
Proof.
  revert st; induction w as [|a w IH]; intros st; simpl.
  - split.
    + intros ->; exists []; auto.
    + intros (k & E & Hk & Ecs). destruct k; [|discriminate].
      apply state_ext; auto.
  - split.
    + intros (mid & (c & E & Hc & Ecs) & H).
      apply IH in H as (k & E' & Hk & Ecs').
      exists (c :: k); simpl. rewrite E, E', Hc, Hk. repeat split; congruence.
    + intros (k & E & Hk & Ecs). destruct k as [|c k]; [discriminate|].
      apply andb_true_iff in Hk as [Hc Hk].
      exists (mkState (k ++ ahead st') (captures st)); split.
      * exists c; auto.
      * apply IH. exists k; auto.
Qed.

Lemma Matches_lit s st st' :
  Matches false (lit s) st st' <->
  ahead st = js s ++ ahead st' /\ captures st' = captures st.
Proof.
  unfold lit; rewrite Matches_lits; split.
  - intros (k & E & Hk & Ecs). apply eq_units_exact in Hk; subst; auto.
  - intros [E Ecs]; exists (js s); rewrite eq_units_exact; auto.
Qed.

Lemma class_mem_exact cl c : class_mem false cl c = in_class cl c.
Proof. unfold class_mem; simpl; apply orb_false_r. Qed.

Lemma forallb_class_exact cl w :
  forallb (class_mem false cl) w = forallb (in_class cl) w.
Proof.
  induction w as [|c w IH]; simpl; auto. rewrite class_mem_exact, IH; auto.
Qed.

(** * The classifier *)

(** ** Its patterns, read as statements about the text *)

Lemma found_import code :
  found code re_import = true <-> imports_library code.
Proof.
  rewrite found_spec; unfold re_import, imports_library;
    cbn [Matches source ignoreCase]; split.
  - intros (pre & post & st & -> & m1 & H1 & m2 & H2 & m3 & H3 & m4 & H4 & H5).
    apply Matches_lit in H1 as [E1 _], H4 as [E4 _].
    destruct H2 as (c & ws & E2 & Hc & Hws & _).
    destruct H3 as (q1 & E3 & Hq1 & _), H5 as (q2 & E5 & Hq2 & _).
    cbn [ahead] in *. rewrite class_mem_exact in *.
    exists pre, (c :: ws), q1, q2, (ahead st). repeat split; auto.
    + rewrite E1, E2, E3, E4, E5. reflexivity.
    + discriminate.
    + cbn [forallb]. apply andb_true_iff; split; [exact Hc|].
      rewrite forallb_class_exact in Hws; exact Hws.
  - intros (pre & ws & q1 & q2 & post & -> & Hne & Hws & Hq1 & Hq2).
    destruct ws as [|c ws]; [congruence|]. simpl in Hws.
    apply andb_true_iff in Hws as [Hc Hws].
    exists pre, (js "from" ++ (c :: ws) ++ q1 :: js "vue-facing-decorator" ++ q2 :: post),
      (mkState post []). split; auto.
    exists (mkState ((c :: ws) ++ q1 :: js "vue-facing-decorator" ++ q2 :: post) []).
    split; [apply Matches_lit; auto|].
    exists (mkState (q1 :: js "vue-facing-decorator" ++ q2 :: post) []). split.
    { exists c, ws; simpl. rewrite class_mem_exact. repeat split; auto.
      rewrite forallb_class_exact; exact Hws. }
    exists (mkState (js "vue-facing-decorator" ++ q2 :: post) []). split.
    { exists q1; rewrite class_mem_exact; auto. }
    exists (mkState (q2 :: post) []). split; [apply Matches_lit; auto|].
    exists q2; rewrite class_mem_exact; auto.
Qed.

Lemma found_extends_vue code :
  found code re_extends_vue = true <-> extends_Vue code.
Proof.
  rewrite found_spec; unfold re_extends_vue, extends_Vue;
    cbn [Matches source ignoreCase]; split.
  - intros (pre & post & st & -> & m1 & H1 & m2 & H2 & m3 & H3 & m4 & H4 & H5).
    apply Matches_lit in H1 as [E1 _], H3 as [E3 _], H5 as [E5 _].
    destruct H2 as (mid & E2 & Hmid & _), H4 as (w & E4 & Hw & _).
    cbn [ahead] in *. rewrite class_mem_exact in Hw.
    exists pre, mid, w, (ahead st). repeat split; auto.
    + rewrite E1, E2, E3, E4, E5. reflexivity.
    + rewrite forallb_class_exact in Hmid; exact Hmid.
  - intros (pre & mid & w & post & -> & Hmid & Hw).
    exists pre, (js "class" ++ mid ++ js "extends" ++ w :: js "Vue" ++ post),
      (mkState post []). split; auto.
    exists (mkState (mid ++ js "extends" ++ w :: js "Vue" ++ post) []).
    split; [apply Matches_lit; auto|].
    exists (mkState (js "extends" ++ w :: js "Vue" ++ post) []). split.
    { exists mid; repeat split; auto.
      rewrite forallb_class_exact; exact Hmid. }
    exists (mkState (w :: js "Vue" ++ post) []).
    split; [apply Matches_lit; auto|].
    exists (mkState (js "Vue" ++ post) []). split.
    { exists w; rewrite class_mem_exact; auto. }
    apply Matches_lit; auto.
Qed.

Lemma found_export_not_object code :
  found code re_export_not_object = true <-> exports_not_object code.
Proof.
  rewrite found_spec; unfold re_export_not_object, exports_not_object;
    cbn [Matches source ignoreCase]; split.
  - intros (pre & post & st & -> & m1 & H1 & m2 & H2 & m3 & H3 & m4 & H4 & -> & H5).
    apply Matches_lit in H1 as [E1 _], H3 as [E3 _].
    destruct H2 as (w1 & E2 & Hw1 & _), H4 as (w2 & E4 & Hw2 & _).
    cbn [ahead] in *. rewrite class_mem_exact in *.
    exists pre, w1, w2, (ahead m4). repeat split; auto.
    + rewrite E1, E2, E3, E4. reflexivity.
    + intros t Ht. apply (H5 (mkState t (captures m4))).
      apply Matches_lit; auto.
  - intros (pre & w1 & w2 & post & -> & Hw1 & Hw2 & Hno).
    exists pre, (js "export" ++ w1 :: js "default" ++ w2 :: post),
      (mkState post []). split; auto.
    exists (mkState (w1 :: js "default" ++ w2 :: post) []).
    split; [apply Matches_lit; auto|].
    exists (mkState (js "default" ++ w2 :: post) []). split.
    { exists w1; rewrite class_mem_exact; auto. }
    exists (mkState (w2 :: post) []). split; [apply Matches_lit; auto|].
    exists (mkState post []). split.
    { exists w2; rewrite class_mem_exact; auto. }
    split; auto. intros x Hx. apply Matches_lit in Hx as [E _].
    apply (Hno _ E).
Qed.

Lemma found_extends code :
  found code re_extends = true <-> extends_something code.
Proof.
  rewrite found_spec; unfold re_extends, extends_something;
    cbn [Matches source ignoreCase]; split.
  - intros (pre & post & st & -> & m1 & H1 & m2 & H2 & H3).
    apply Matches_lit in H1 as [E1 _], H3 as [E3 _].
    destruct H2 as (mid & E2 & Hmid & _). cbn [ahead] in *.
    exists pre, mid, (ahead st). split.
    + rewrite E1, E2, E3. reflexivity.
    + rewrite forallb_class_exact in Hmid; exact Hmid.
  - intros (pre & mid & post & -> & Hmid).
    exists pre, (js "class" ++ mid ++ js "extends" ++ post), (mkState post []).
    split; auto.
    exists (mkState (mid ++ js "extends" ++ post) []).
    split; [apply Matches_lit; auto|].
    exists (mkState (js "extends" ++ post) []). split.
    { exists mid; repeat split; auto.
      rewrite forallb_class_exact; exact Hmid. }
    apply Matches_lit; auto.
Qed.

Lemma found_export_not_capital code :
  found code re_export_not_capital = true <-> exports_not_capital code.
Proof.
  rewrite found_spec; unfold re_export_not_capital, exports_not_capital;
    cbn [Matches source ignoreCase]; split.
  - intros (pre & post & st & -> & m1 & H1 & m2 & H2 & m3 & H3 & m4 & H4
              & m5 & [-> H5] & [-> H6]).
    apply Matches_lit in H1 as [E1 _], H3 as [E3 _].
    destruct H2 as (w1 & E2 & Hw1 & _), H4 as (w2 & E4 & Hw2 & _).
    cbn [ahead] in *. rewrite class_mem_exact in *.
    exists pre, w1, w2, (ahead m4). repeat split; auto.
    + rewrite E1, E2, E3, E4. reflexivity.
    + intros t Ht. apply (H5 (mkState t (captures m4))).
      apply Matches_lit; auto.
    + intros c t Ht. destruct (in_class capitals c) eqn:Hc; auto.
      elim (H6 (mkState t (captures m4))).
      exists c. rewrite class_mem_exact. auto.
  - intros (pre & w1 & w2 & post & -> & Hw1 & Hw2 & Hno & Hcap).
    exists pre, (js "export" ++ w1 :: js "default" ++ w2 :: post),
      (mkState post []). split; auto.
    exists (mkState (w1 :: js "default" ++ w2 :: post) []).
    split; [apply Matches_lit; auto|].
    exists (mkState (js "default" ++ w2 :: post) []). split.
    { exists w1; rewrite class_mem_exact; auto. }
    exists (mkState (w2 :: post) []). split; [apply Matches_lit; auto|].
    exists (mkState post []). split.
    { exists w2; rewrite class_mem_exact; auto. }
    exists (mkState post []). split.
    { split; auto. intros x Hx. apply Matches_lit in Hx as [E _].
      apply (Hno _ E). }
    split; auto. intros x (c & E & Hc & _). cbn [ahead] in E.
    rewrite class_mem_exact, (Hcap _ _ E) in Hc. discriminate.
Qed.

Lemma run_gate code :
  exportsClassComponent_run code
  = let gate :=
      ((if found code re_import then 40 else 0)
       + (if found code re_extends_vue then 40
          else if found code re_extends then 10 else 0))%Z in
    if (gate >? 50)%Z then EarlyReturn gate
    else
      let a := (if found code re_export_not_object then gate + 1 else gate)%Z in
      FinalReturn gate a
        (if found code re_export_not_capital then a - 1 else a)%Z.
Proof.
  unfold exportsClassComponent_run.
  destruct (found code re_import), (found code re_extends_vue),
    (found code re_extends); reflexivity.
Qed.

(** * The rewriter *)

(** ** Letters and letter case *)

Section Letters.

Open Scope N_scope.

Ltac by_ranges :=
  unfold class_mem, in_class, letters, capitals, canonicalize, swap_case,
    existsb, fst, snd, andb, orb;
  repeat match goal with
         | |- context [N.leb ?a ?b] => destruct (N.leb_spec a b)
         | H : context [N.leb ?a ?b] |- _ => destruct (N.leb_spec a b)
         end;
  try reflexivity; try discriminate; try lia.

Lemma canonicalize_swap_case c : canonicalize (swap_case c) = canonicalize c.
Proof. by_ranges. Qed.

Lemma canonicalize_eq a c :
  canonicalize a = canonicalize c -> a = c \/ a = swap_case c.
Proof. by_ranges. Qed.

(** With the i flag a class matches the units that share their canonical
    form with one of its members. *)
Lemma class_mem_ignore_case cl c :
  class_mem true cl c = true <->
  exists a, in_class cl a = true /\ canonicalize a = canonicalize c.
Proof.
  unfold class_mem; simpl; rewrite orb_true_iff; split.
  - intros [H|H]; [exists c | exists (swap_case c)];
      auto using canonicalize_swap_case.
  - intros (a & Ha & E). apply canonicalize_eq in E as [->| ->]; auto.
Qed.

(** [[A-Za-z]] with the i flag is still exactly the ASCII letters. *)
Lemma class_mem_letters c : class_mem true letters c = in_class letters c.
Proof. by_ranges. Qed.

Lemma letter_canonical c :
  in_class letters c = in_class capitals (canonicalize c).
Proof. by_ranges. Qed.

Lemma forallb_letters w :
  forallb (class_mem true letters) w = forallb (in_class letters) w.
Proof.
  induction w as [|c w IH]; simpl; auto.
  rewrite IH. f_equal. apply class_mem_letters.
Qed.

Lemma eq_units_canonical w k :
  eq_units true w k = true <-> map canonicalize k = map canonicalize w.
Proof.
  revert k; induction w as [|a w IH]; intros [|c k]; simpl;
    try (split; [discriminate | intros H; discriminate]); [tauto|].
  rewrite andb_true_iff, N.eqb_eq, IH. split.
  - intros [-> ->]; auto.
  - intros H; inversion H; auto.
Qed.

End Letters.

(** ** The assignment pattern *)

Lemma consumed_eq st st' w : ahead st = w ++ ahead st' -> consumed st st' = w.
Proof.
  destruct st as [s cs], st' as [s' cs']; simpl; intros ->.
  apply consumed_app.
Qed.

Lemma canonical_semicolon c : canonicalize c = semicolon -> c = semicolon.
Proof.
  unfold canonicalize, semicolon.
  destruct (N.leb_spec 97 c), (N.leb_spec c 122); simpl; lia.
Qed.

Lemma Matches_sfc s st :
  Matches true (source re_sfc_main) (mkState s []) st <->
  exists X, starts_assignment s X (ahead st) /\ captures st = [(1%nat, X)].
Proof.
  unfold re_sfc_main, starts_assignment, lit; cbn [Matches source]; split.
  - intros (m1 & H1 & m2 & (m3 & (X & E2 & HX & C2) & ->) & H3).
    apply Matches_lits in H1 as (k & E1 & Hk & C1).
    apply Matches_lits in H3 as (k' & E3 & Hk' & C3).
    cbn [ahead captures] in *.
    apply eq_units_canonical in Hk, Hk'.
    destruct k' as [|c [|? ?]]; try discriminate.
    inversion Hk' as [Hc]. apply canonical_semicolon in Hc; subst c.
    exists X. rewrite C3, C2, C1, (consumed_eq _ _ _ E2). split; auto.
    exists k. rewrite forallb_letters in HX. repeat split; auto.
    rewrite E1, E2, E3; reflexivity.
  - intros (X & (k & Hk & HX & ->) & C).
    exists (mkState (X ++ semicolon :: ahead st) []). split.
    { apply Matches_lits. exists k. rewrite eq_units_canonical; auto. }
    exists (mkState (semicolon :: ahead st) [(1%nat, X)]). split.
    { exists (mkState (semicolon :: ahead st) []). split.
      - exists X. rewrite forallb_letters; auto.
      - rewrite (consumed_eq _ _ X); reflexivity. }
    apply Matches_lits. exists [semicolon]; auto.
Qed.

(** The end of a word followed by a semicolon is determined. *)
Lemma word_semicolon_unique X X' t t' :
  word X -> word X' ->
  X ++ semicolon :: t = X' ++ semicolon :: t' -> X = X' /\ t = t'.
Proof.
  unfold word; revert X'; induction X as [|c X IH]; intros [|c' X']; simpl;
    intros H H' E.
  - inversion E; auto.
  - inversion E; subst. discriminate.
  - inversion E; subst. discriminate.
  - apply andb_true_iff in H as [_ H], H' as [_ H'].
    inversion E; subst. destruct (IH _ H H' H2) as [-> ->]; auto.
Qed.

Lemma app_same_length (a b x y : text) :
  length a = length b -> a ++ x = b ++ y -> a = b /\ x = y.
Proof.
  revert b; induction a as [|c a IH]; intros [|d b]; simpl; try discriminate; auto.
  intros L E. inversion E; subst. destruct (IH b) as [-> ->]; auto.
Qed.

Lemma assignment_head_length k : assignment_head k -> length k = 18.
Proof.
  intros H. apply (f_equal (@length _)) in H. rewrite !length_map in H. exact H.
Qed.

Lemma starts_assignment_unique s X t X' t' :
  starts_assignment s X t -> starts_assignment s X' t' -> X = X' /\ t = t'.
Proof.
  intros (k & Hk & HX & ->) (k' & Hk' & HX' & E).
  apply app_same_length in E as [<- E].
  - eapply word_semicolon_unique; eauto.
  - rewrite (assignment_head_length Hk), (assignment_head_length Hk'); auto.
Qed.

(** One attempt of the pattern, as a statement about the text. *)
Lemma match_here_sfc s X t :
  starts_assignment s X t ->
  match_here re_sfc_main s = Some (mkState t [(1%nat, X)]).
Proof.
  intros H. apply match_here_unique.
  - apply Matches_sfc. exists X; auto.
  - intros st' Hst. apply Matches_sfc in Hst as (X' & H' & C).
    destruct (starts_assignment_unique H' H) as [-> E].
    apply state_ext; auto.
Qed.

Lemma match_here_sfc_inv s st :
  match_here re_sfc_main s = Some st ->
  exists X, starts_assignment s X (ahead st) /\ captures st = [(1%nat, X)].
Proof. intros H. apply match_here_Some in H. apply Matches_sfc; auto. Qed.

Lemma match_here_sfc_None s :
  match_here re_sfc_main s = None <-> forall X t, ~ starts_assignment s X t.
Proof.
  rewrite match_here_None; split.
  - intros H X t Hs.
    apply (H (mkState t [(1%nat, X)])), Matches_sfc. exists X; auto.
  - intros H st Hst. apply Matches_sfc in Hst as (X & Hs & _).
    elim (H _ _ Hs).
Qed.

(** The pattern stops at a unit that is neither a letter nor the
    semicolon. *)
Lemma word_then_other X c rest X' t :
  word X -> word X' -> in_class letters c = false -> c <> semicolon ->
  X ++ c :: rest <> X' ++ semicolon :: t.
Proof.
  unfold word; revert X'; induction X as [|x X IH]; intros [|x' X']; simpl;
    intros H H' Hc Hs E.
  - inversion E; auto.
  - apply andb_true_iff in H' as [H' _]. inversion E; subst. congruence.
  - apply andb_true_iff in H as [H _]. inversion E; subst. discriminate.
  - apply andb_true_iff in H as [_ H], H' as [_ H'].
    inversion E; subst. eapply IH; eauto.
Qed.

(** ** The replace loop *)

(** The loop never runs out of rounds: every round leaves a shorter text, so
    any bound above the length of the text gives the same result. *)
Lemma replace_loop_fuel re tpl f1 f2 s :
  length s < f1 -> length s < f2 ->
  replace_loop f1 re tpl s = replace_loop f2 re tpl s.
Proof.
  revert f2 s; induction f1 as [|f1 IH]; intros [|f2] s L1 L2; try lia.
  simpl. destruct (exec re s) as [r|] eqn:E; auto.
  apply exec_Some in E as (Hs & _ & _).
  apply (f_equal (@length _)) in Hs. rewrite !length_app in Hs.
  destruct (matched r) as [|c w], (ahead (after r)) as [|d s'];
    simpl in *; auto.
  - do 2 f_equal. apply IH; lia.
  - f_equal. apply IH; simpl; lia.
  - f_equal. apply IH; simpl; lia.
Qed.

Lemma substitute_sfc X :
  substitute sfc_main_template [(1%nat, X)] = wrapped X.
Proof. unfold wrapped; simpl. reflexivity. Qed.

(** One round of the loop. *)
Lemma replace_unfold re tpl s :
  global re = true ->
  replace s re tpl =
  match exec re s with
  | None => s
  | Some r =>
      let out := skipped r ++ substitute tpl (captures (after r)) in
      match matched r, ahead (after r) with
      | [], [] => out
      | [], c :: s' => out ++ c :: replace s' re tpl
      | _ :: _, s' => out ++ replace s' re tpl
      end
  end.
Proof.
  intros G. unfold replace at 1. rewrite G. cbn [replace_loop].
  destruct (exec re s) as [r|] eqn:E; auto.
  apply exec_Some in E as (Hs & _ & _).
  apply (f_equal (@length _)) in Hs. rewrite !length_app in Hs.
  unfold replace. rewrite G.
  destruct (matched r) as [|c w], (ahead (after r)) as [|d s'];
    simpl in Hs; cbv beta iota zeta; auto.
  - do 2 f_equal. apply replace_loop_fuel; lia.
  - f_equal. apply replace_loop_fuel; simpl; lia.
  - f_equal. apply replace_loop_fuel; simpl; lia.
Qed.

(** The text before the first assignment is kept, the assignment is wrapped,
    and the loop goes on behind it. *)
Lemma transformedCode_first pre s X t :
  unmatched_before re_sfc_main pre s ->
  starts_assignment s X t ->
  transformedCode (pre ++ s) = pre ++ wrapped X ++ transformedCode t.
Proof.
  intros U H. unfold transformedCode.
  rewrite (@replace_unfold re_sfc_main _ (pre ++ s) eq_refl).
  rewrite (exec_first U (match_here_sfc H)).
  cbn [skipped matched after ahead captures].
  destruct H as (k & Hk & HX & ->).
  replace (k ++ X ++ semicolon :: t) with ((k ++ X ++ [semicolon]) ++ t)
    by (rewrite <- !app_assoc; reflexivity).
  rewrite consumed_app, substitute_sfc.
  pose proof (assignment_head_length Hk) as L.
  destruct k as [|c k]; [discriminate|]. cbn [app].
  rewrite <- app_assoc. reflexivity.
Qed.

Lemma exec_sfc_None s : exec re_sfc_main s = None <-> no_assignment s.
Proof.
  rewrite exec_None; unfold no_assignment; split.
  - intros H pre post X t E. apply match_here_sfc_None; eauto.
  - intros H pre post E. apply match_here_sfc_None. intros X t. eauto.
Qed.

Lemma transformedCode_unmatched s : no_assignment s -> transformedCode s = s.
Proof.
  intros H. unfold transformedCode.
  rewrite replace_unfold by reflexivity.
  apply exec_sfc_None in H. rewrite H. reflexivity.
Qed.

(** Either no assignment starts in the text, or there is a first one. *)
Lemma first_assignment s :
  no_assignment s \/
  exists pre post X t,
    s = pre ++ post /\ unmatched_before re_sfc_main pre post
    /\ starts_assignment post X t.
Proof.
  destruct (exec re_sfc_main s) as [r|] eqn:E.
  - right. apply exec_Some in E as (Hs & Hm & Hu).
    apply match_here_sfc_inv in Hm as (X & H & _).
    exists (skipped r), (matched r ++ ahead (after r)), X, (ahead (after r)); auto.
  - left. apply exec_sfc_None; auto.
Qed.

(** ** The loop does what [Rewritten] says *)

Lemma unmatched_before_sfc pre post :
  unmatched_before re_sfc_main pre post <-> first_at pre post.
Proof.
  unfold unmatched_before, first_at; split; intros H p1 c p2.
  - intros X t E. specialize (H p1 c p2 E).
    rewrite match_here_sfc_None in H. apply H.
  - intros E. apply match_here_sfc_None. intros X t. eapply H; eauto.
Qed.

Lemma starts_assignment_length s X t :
  starts_assignment s X t -> length s = 19 + length X + length t.
Proof.
  intros (k & Hk & _ & ->). rewrite !length_app, (assignment_head_length Hk).
  simpl. lia.
Qed.

Lemma transformedCode_Rewritten s : Rewritten s (transformedCode s).
Proof.
  remember (length s) as n eqn:L. revert s L.
  induction n as [n IH] using lt_wf_ind; intros s ->.
  destruct (first_assignment s) as [H|(pre & post & X & t & -> & U & H)].
  - rewrite (transformedCode_unmatched H). constructor; auto.
  - rewrite (transformedCode_first U H).
    apply Rewritten_first with (t := t); auto;
      [apply unmatched_before_sfc; auto|].
    apply (IH (length t)); auto.
    rewrite length_app, (starts_assignment_length H). lia.
Qed.


(** ** Assignments do not overlap *)

Lemma starts_assignment_app s X t s' :
  starts_assignment s X t -> starts_assignment (s ++ s') X (t ++ s').
Proof.
  intros (k & Hk & HX & ->). exists k. repeat split; auto.
  rewrite <- !app_assoc. reflexivity.
Qed.

Lemma sfc_prefix_canonical_eq :
  map canonicalize sfc_prefix = sfc_prefix_canonical.
Proof. reflexivity. Qed.

(** [CONST _SFC_MAIN = ] has no proper border: no proper suffix of it is one
    of its prefixes. *)
Lemma head_no_border (a b c : text) :
  a <> [] -> b <> [] ->
  a ++ b = map canonicalize sfc_prefix ->
  b ++ c = map canonicalize sfc_prefix -> False.
Proof.
  intros Ha Hb E1 E2.
  destruct b as [|x b]; [congruence|]. destruct a as [|a0 a]; [congruence|].
  rewrite sfc_prefix_canonical_eq in E1, E2.
  unfold sfc_prefix_canonical in E1, E2. cbn [app] in E1, E2.
  injection E2 as Hx E2. subst x. injection E1 as _ E1.
  repeat (destruct a as [|? a]; simpl in E1;
          [ first [ discriminate E1
                  | injection E1 as E1; subst; simpl in E2; discriminate E2 ]
          | first [ discriminate E1 | injection E1 as _ E1 ] ]).
Qed.

Lemma canonical_blank c : canonicalize c = 32%N -> c = 32%N.
Proof.
  unfold canonicalize.
  destruct (N.leb_spec 97 c), (N.leb_spec c 122); simpl; lia.
Qed.

(** The head of an assignment cannot start inside a word that is followed
    by a unit which is neither a letter nor a blank: the head's first five
    units are letters and its sixth is a blank. *)
Lemma word_then_head X e k0 rest t :
  word X -> in_class letters e = false -> e <> 32%N ->
  assignment_head k0 -> k0 ++ rest = X ++ e :: t -> False.
Proof.
  unfold word, assignment_head; intros HX He Hb Hk E.
  do 6 (destruct k0 as [|? k0]; [discriminate|]).
  rewrite sfc_prefix_canonical_eq in Hk.
  unfold sfc_prefix_canonical in Hk. cbn [map] in Hk.
  injection Hk as H0 H1 H2 H3 H4 H5 _.
  rewrite letter_canonical in He.
  do 6 (destruct X as [|? X]; cbn [app] in E; cbn [forallb] in HX;
        [ injection E as -> _;
          match goal with H : canonicalize e = _ |- _ =>
            first [ rewrite H in He; discriminate He
                  | apply canonical_blank in H; congruence ] end
        | injection E as <- E; apply andb_true_iff in HX as [? HX] ]).
  match goal with
  | H : in_class letters ?c = true, H' : canonicalize ?c = 32%N |- _ =>
      rewrite letter_canonical, H' in H; discriminate H
  end.
Qed.

Lemma assignment_no_overlap p k0 rest X t :
  p <> [] -> assignment_head k0 ->
  starts_assignment (p ++ k0 ++ rest) X t ->
  exists p', starts_assignment p X p' /\ t = p' ++ k0 ++ rest.
Proof.
  intros Hp Hk0 (k & Hk & HX & E).
  apply app_eq_app in E as [l [[-> E]|[-> E]]].
  - apply app_eq_app in E as [l2 [[-> E]|[-> E]]].
    + exfalso. unfold word in HX. rewrite forallb_app in HX.
      apply andb_true_iff in HX as [_ HX].
      apply (@word_then_head l2 semicolon k0 rest t);
        [exact HX | reflexivity | discriminate | exact Hk0 | exact E].
    + destruct l2 as [|d l2]; simpl in E.
      * exfalso.
        apply (@word_then_head [] semicolon k0 rest t);
          [reflexivity | reflexivity | discriminate | exact Hk0
          | symmetry; exact E].
      * injection E as <- ->. exists l2. split; auto.
        exists k. repeat split; auto.
  - destruct l as [|c l].
    + exfalso.
      apply (@word_then_head X semicolon k0 rest t);
        [exact HX | reflexivity | discriminate | exact Hk0 | exact E].
    + exfalso. pose proof (assignment_head_length Hk) as Lk.
      pose proof (assignment_head_length Hk0) as Lk0.
      rewrite length_app in Lk.
      apply app_eq_app in E as [l3 [[-> E]|[E _]]].
      * unfold assignment_head in Hk, Hk0. rewrite map_app in Hk, Hk0.
        apply (@head_no_border (map canonicalize p)
                 (map canonicalize (c :: l)) (map canonicalize l3));
          auto; [destruct p; [congruence | discriminate] | discriminate].
      * apply (f_equal (@length _)) in E. rewrite length_app in E.
        destruct p; [congruence|]. simpl in *. lia.
Qed.

Lemma first_at_weaken pre l s : first_at pre (l ++ s) -> first_at pre l.
Proof.
  intros F p1 c p2 X t E H. apply (F p1 c p2 X (t ++ s) E).
  apply (starts_assignment_app s) in H.
  cbn [app] in H. rewrite <- app_assoc in H. exact H.
Qed.

Lemma first_at_no_assignment p s : first_at p s -> no_assignment p.
Proof.
  intros F pre post X t -> H.
  pose proof (starts_assignment_length H) as L.
  destruct post as [|c post]; [simpl in L; lia|].
  apply (F pre c post X (t ++ s) eq_refl).
  apply (starts_assignment_app s) in H. exact H.
Qed.

(** The rewriter works through the text piece by piece: an assignment is
    wrapped wherever it stands, whatever comes before it. *)
Lemma transformedCode_assignment p s X t :
  starts_assignment s X t ->
  transformedCode (p ++ s) = transformedCode p ++ wrapped X ++ transformedCode t.
Proof.
  remember (length p) as n eqn:L. revert p L s X t.
  induction n as [n IH] using lt_wf_ind; intros p -> s X t H.
  destruct (first_assignment (p ++ s))
    as [N|(pre & post & X' & t' & E & U & H')].
  { elim (N p s X t eq_refl H). }
  assert (first_at pre post) as F by (apply unmatched_before_sfc; auto).
  apply app_eq_app in E as [l [[-> ->]|[-> ->]]]; destruct l as [|c l].
  - rewrite app_nil_r in *. cbn [app] in *.
    destruct (starts_assignment_unique H H') as [-> ->].
    rewrite (transformedCode_first U H').
    rewrite (transformedCode_unmatched (first_at_no_assignment F)).
    reflexivity.
  - destruct H as (k0 & Hk0 & HX & ->).
    destruct (@assignment_no_overlap (c :: l) k0 (X ++ semicolon :: t) X' t')
      as (p' & Hl & ->); auto; [discriminate|].
    rewrite <- app_assoc, (transformedCode_first U H').
    rewrite (IH (length p')) with (X := X) (t := t); auto.
    + apply first_at_weaken in F.
      rewrite (@transformedCode_first pre (c :: l) X' p'); auto.
      * rewrite <- !app_assoc. reflexivity.
      * apply unmatched_before_sfc; auto.
    + rewrite length_app, (starts_assignment_length Hl). lia.
    + exists k0; auto.
  - rewrite app_nil_r in *. cbn [app] in *.
    destruct (starts_assignment_unique H H') as [-> ->].
    rewrite (transformedCode_first U H').
    rewrite (transformedCode_unmatched (first_at_no_assignment F)).
    reflexivity.
  - elim (F p c l X t eq_refl H).
Qed.

(** ** Texts in which no assignment starts *)

(** No assignment starts inside the import line, whatever follows it. *)
Lemma first_at_import s : first_at vueFacingImport s.
Proof.
  apply unmatched_before_sfc. intros p1 c p2 E.
  unfold vueFacingImport in E. cbn in E.
  repeat (destruct p1 as [|? p1]; cbn [app] in E;
          [ injection E; intros; subst; vm_compute; reflexivity
          | first [ discriminate E | injection E as _ E ] ]).
  destruct p1; discriminate E.
Qed.

Lemma first_at_app p pre post :
  first_at p (pre ++ post) -> first_at pre post -> first_at (p ++ pre) post.
Proof.
  intros Fp F p1 c p2 X t E.
  apply app_eq_app in E as [l [[-> E]|[-> E]]].
  - destruct l as [|d l]; cbn [app] in E.
    + subst pre. apply (F [] c p2 X t eq_refl).
    + injection E as -> ->. rewrite <- app_assoc.
      apply (Fp p1 d l X t eq_refl).
  - apply (F l c p2 X t E).
Qed.

Lemma no_assignment_app p s :
  first_at p s -> no_assignment s -> no_assignment (p ++ s).
Proof.
  intros F N pre post X t E H.
  apply app_eq_app in E as [l [[-> ->]|[-> ->]]].
  - destruct l as [|c l]; [exact (N [] s X t eq_refl H)|].
    exact (F pre c l X t eq_refl H).
  - exact (N l post X t eq_refl H).
Qed.

(** Nothing in front of an assignment's head can reach into it. *)
Lemma first_at_before_head pre k0 rest :
  no_assignment pre -> assignment_head k0 -> first_at pre (k0 ++ rest).
Proof.
  intros N Hk0 p1 c p2 X t -> H.
  destruct (@assignment_no_overlap (c :: p2) k0 rest X t) as (p' & H' & _);
    auto; [discriminate|].
  exact (N p1 (c :: p2) X p' eq_refl H').
Qed.

(** No assignment starts inside a wrapped assignment, whatever follows. *)
Lemma first_at_wrapped X rest : word X -> first_at (wrapped X) rest.
Proof.
  intros HX. unfold wrapped. apply first_at_app.
  - apply unmatched_before_sfc. intros p1 c p2 E. cbn in E.
    repeat (destruct p1 as [|? p1]; cbn [app] in E;
            [ injection E; intros; subst; vm_compute; reflexivity
            | first [ discriminate E | injection E as _ E ] ]).
    destruct p1; discriminate E.
  - intros p1 c p2 X' t E (k & Hk & HX' & E').
    assert (forall W e r, word W -> in_class letters e = false -> e <> 32%N ->
                          c :: p2 ++ rest = W ++ e :: r -> False) as Stop.
    { intros W e r HW He Hb E2. rewrite E' in E2.
      exact (@word_then_head W e k (X' ++ semicolon :: t) r HW He Hb Hk E2). }
    apply app_eq_app in E as [l [[-> E]|[-> E]]].
    + unfold word in HX. rewrite forallb_app in HX.
      apply andb_true_iff in HX as [_ HX].
      apply (Stop l 41%N (semicolon :: rest));
        [exact HX | reflexivity | discriminate |].
      change (c :: p2 ++ rest) with ((c :: p2) ++ rest).
      rewrite E, <- app_assoc. reflexivity.
    + destruct l as [|d l]; cbn [app] in E.
      * injection E as <- <-.
        apply (Stop [] 41%N (semicolon :: rest));
          [reflexivity | reflexivity | discriminate | reflexivity].
      * injection E as _ E. destruct l as [|d' l]; cbn [app] in E.
        { injection E as <- <-.
          apply (Stop [] semicolon rest);
            [reflexivity | reflexivity | discriminate | reflexivity]. }
        injection E as _ E. destruct l; discriminate E.
Qed.

(** What the rewriter returns holds no assignment any more. *)
Lemma Rewritten_no_assignment s out : Rewritten s out -> no_assignment out.
Proof.
  induction 1 as [s N|pre post X t out F H _ IH]; auto.
  destruct H as (k & _ & HX & _).
  apply no_assignment_app.
  - unfold wrapped. rewrite <- app_assoc.
    apply (@first_at_before_head pre sfc_prefix); [|reflexivity].
    eapply first_at_no_assignment; eauto.
  - apply no_assignment_app; auto. apply first_at_wrapped; auto.
Qed.

Lemma transformedCode_idempotent s :
  transformedCode (transformedCode s) = transformedCode s.
Proof.
  apply transformedCode_unmatched.
  apply (Rewritten_no_assignment (transformedCode_Rewritten s)).
Qed.

(** A prefix in which no assignment can start is copied. *)
Lemma transformedCode_inert p s :
  (forall s', first_at p s') ->
  transformedCode (p ++ s) = p ++ transformedCode s.
Proof.
  intros Fp.
  destruct (first_assignment s) as [N|(pre & post & X & t & -> & U & H)].
  - rewrite (transformedCode_unmatched N). apply transformedCode_unmatched.
    intros pre post X t E H.
    apply app_eq_app in E as [l [[-> ->]|[-> ->]]].
    + destruct l as [|c l]; [exact (N [] s X t eq_refl H)|].
      exact (Fp s pre c l X t eq_refl H).
    + exact (N l post X t eq_refl H).
  - rewrite (transformedCode_first U H), app_assoc.
    rewrite (@transformedCode_first (p ++ pre) post X t); auto.
    + rewrite <- app_assoc. reflexivity.
    + apply unmatched_before_sfc, first_at_app; auto.
      apply unmatched_before_sfc; auto.
Qed.

(** ** The handler *)

Lemma handler_true options code :
  isClassComponent options code = true ->
  handler options code = vueFacingImport ++ transformedCode code.
Proof. unfold handler; intros ->; reflexivity. Qed.

Lemma handler_false options code :
  isClassComponent options code = false -> handler options code = code.
Proof. unfold handler; intros ->; reflexivity. Qed.

Lemma preflight_rejects_output s : passesPreflight (vueFacingImport ++ s) = false.
Proof.
  unfold passesPreflight.
  rewrite (@includes_app_l vueFacingImport s (js "toNative")) by reflexivity.
  rewrite andb_false_r. reflexivity.
Qed.

(** * The claims *)

(** C1, as amended: when the function gets past the gate, the first of the
    two late checks adds 1 exactly when the text holds [export], one white
    space, [default], one white space, and the next unit is not an opening
    brace; it adds nothing otherwise.  In particular it adds 1 for every
    text whose default export is a class declaration. *)
Theorem first_check_adds_one code g a f :
  exportsClassComponent_run code = FinalReturn g a f ->
  (a = (g + 1)%Z <-> exports_not_object code)
  /\ (a = g <-> ~ exports_not_object code)
  /\ (forall pre w1 w2 post,
        is_space w1 = true -> is_space w2 = true ->
        code = pre ++ js "export" ++ w1 :: js "default" ++ w2
                 :: js "class" ++ post ->
        a = (g + 1)%Z).
Proof.
  rewrite run_gate. cbv zeta. rewrite <- found_export_not_object.
  destruct (_ >? 50)%Z; [discriminate|].
  destruct (found code re_export_not_object) eqn:F; intros E; inversion E;
    subst; repeat split; intros; try lia; try discriminate; auto.
  assert (found code re_export_not_object = true) as C; [|congruence].
  apply found_export_not_object.
  exists pre, w1, w2, (js "class" ++ post). repeat split; auto.
  intros t; discriminate.
Qed.

Lemma first_check_adds_one_witness :
  (1%Z = (0 + 1)%Z <-> exports_not_object default_exported_class)
  /\ (1%Z = 0%Z <-> ~ exports_not_object default_exported_class)
  /\ (forall pre w1 w2 post,
        is_space w1 = true -> is_space w2 = true ->
        default_exported_class
        = pre ++ js "export" ++ w1 :: js "default" ++ w2 :: js "class" ++ post ->
        1%Z = (0 + 1)%Z).
Proof.
  apply (@first_check_adds_one default_exported_class 0 1 1).
  vm_compute. reflexivity.
Defined.

(** C1 as stated fails: on [export default class Foo {}] the function gets
    past the gate with 0 and the first late check makes it 1, so it is not
    true that the check adds nothing whenever the default export is a class
    declaration. *)
Lemma first_check_counts_class_export :
  exportsClassComponent_run default_exported_class = FinalReturn 0 1 1
  /\ ~ (forall code g a f,
          exportsClassComponent_run code = FinalReturn g a f ->
          Occurs (js "export default class") code -> a = g).
Proof.
  assert (exportsClassComponent_run default_exported_class
          = FinalReturn 0 1 1) as E by (vm_compute; reflexivity).
  split; [exact E|]. intros C.
  specialize (C default_exported_class 0%Z 1%Z 1%Z E).
  assert (1%Z = 0%Z) as F; [|discriminate F].
  apply C. exists [], (js " Foo {}"). reflexivity.
Qed.

(** C2: the plugin built without options is idempotent; when its transform
    fires, the output holds [toNative], fails the preflight filter, and is
    left alone by the second run. *)
Theorem pipeline_idempotent code :
  pipeline (pipeline code) = pipeline code
  /\ (isClassComponent default_options code = true ->
        Occurs (js "toNative") (pipeline code)
        /\ passesPreflight (pipeline code) = false
        /\ isClassComponent default_options (pipeline code) = false).
Proof.
  unfold pipeline, pluginVfd, transform.
  destruct (isClassComponent default_options code) eqn:E.
  - rewrite (handler_true _ _ E).
    assert (isClassComponent default_options
              (vueFacingImport ++ transformedCode code) = false) as F
      by (unfold default_options; cbn [isClassComponent];
          rewrite preflight_rejects_output; reflexivity).
    split; [apply handler_false; auto|]. intros _.
    split; [|split; auto using preflight_rejects_output].
    apply includes_spec, includes_app_l. reflexivity.
  - rewrite (handler_false _ _ E). split; [apply handler_false; auto|].
    discriminate.
Qed.

Lemma pipeline_idempotent_witness :
  pipeline (pipeline case_A) = pipeline case_A
  /\ Occurs (js "toNative") (pipeline case_A)
  /\ passesPreflight (pipeline case_A) = false
  /\ isClassComponent default_options (pipeline case_A) = false.
Proof.
  destruct (pipeline_idempotent case_A) as [H1 H2].
  split; [exact H1 | apply H2; vm_compute; reflexivity].
Defined.

(** C3, as amended: the i flag covers the whole pattern, so the head
    [const _sfc_main = ] is recognised in any letter case, the binding name
    included, and wherever it stands the assignment is rewritten to the
    lower-case wrapped form. *)
Theorem sfc_pattern_ignores_case k X p t :
  map canonicalize k = map canonicalize (js "const _sfc_main = ") ->
  word X ->
  transformedCode (p ++ k ++ X ++ js ";" ++ t)
  = transformedCode p ++ js "const _sfc_main = toNative(" ++ X ++ js ");"
      ++ transformedCode t.
Proof.
  intros Hk HX.
  rewrite (@transformedCode_assignment p (k ++ X ++ js ";" ++ t) X t).
  - unfold wrapped. rewrite <- !app_assoc. reflexivity.
  - exists k; repeat split; auto.
Qed.

Lemma sfc_pattern_ignores_case_witness :
  transformedCode ([] ++ js "const _SFC_MAIN = " ++ js "Foo" ++ js ";" ++ [])
  = transformedCode [] ++ js "const _sfc_main = toNative(" ++ js "Foo"
      ++ js ");" ++ transformedCode [].
Proof.
  apply (@sfc_pattern_ignores_case (js "const _SFC_MAIN = ") (js "Foo") [] []);
    reflexivity.
Defined.

(** C3 as stated fails: [const _SFC_MAIN = Foo;], in which only the case of
    the binding name differs, is rewritten, and does not come back as it
    was. *)
Lemma upper_case_binding_is_rewritten :
  transformedCode (js "const _SFC_MAIN = Foo;")
  = js "const _sfc_main = toNative(Foo);"
  /\ handler accept_all (js "const _SFC_MAIN = Foo;")
     = vueFacingImport ++ js "const _sfc_main = toNative(Foo);"
  /\ ~ (transformedCode (js "const _SFC_MAIN = Foo;")
        = js "const _SFC_MAIN = Foo;").
Proof.
  split; [vm_compute; reflexivity | split; [vm_compute; reflexivity|]].
  vm_compute. discriminate.
Qed.

(** The rewriter on identifiers made of ASCII letters only: every occurrence
    of [const _sfc_main = X;] with such an [X], possibly empty, is wrapped,
    wherever it stands; at a head followed by letters and then by a unit
    that is neither a letter nor the semicolon the pattern does not match. *)
Lemma rewriter_replaces_letter_words :
  (forall p X t,
     word X ->
     transformedCode (p ++ js "const _sfc_main = " ++ X ++ js ";" ++ t)
     = transformedCode p ++ js "const _sfc_main = toNative(" ++ X ++ js ");"
         ++ transformedCode t)
  /\ (forall k X c rest,
        assignment_head k -> word X ->
        in_class letters c = false -> c <> semicolon ->
        match_here re_sfc_main (k ++ X ++ c :: rest) = None).
Proof.
  split.
  - intros p X t HX.
    rewrite (@transformedCode_assignment p
               (js "const _sfc_main = " ++ X ++ js ";" ++ t) X t).
    + unfold wrapped. rewrite <- !app_assoc. reflexivity.
    + exists sfc_prefix; repeat split; auto.
  - intros k X c rest Hk HX Hc Hs. apply match_here_sfc_None.
    intros X' t (k' & Hk' & HX' & E).
    apply app_same_length in E as [<- E].
    + apply (@word_then_other X c rest X' t); auto.
    + rewrite (assignment_head_length Hk), (assignment_head_length Hk'); auto.
Qed.

(** Identifiers with a digit or an underscore: the assignments of [Foo2] and
    of [foo_bar] come back as they were, not wrapped. *)
Lemma digits_and_underscores_are_kept :
  transformedCode (js "const _sfc_main = Foo2;") = js "const _sfc_main = Foo2;"
  /\ transformedCode (js "const _sfc_main = foo_bar;")
     = js "const _sfc_main = foo_bar;"
  /\ ~ (transformedCode (js "const _sfc_main = Foo2;")
        = js "const _sfc_main = toNative(Foo2);")
  /\ ~ (transformedCode (js "const _sfc_main = foo_bar;")
        = js "const _sfc_main = toNative(foo_bar);").
Proof.
  repeat split; try (vm_compute; reflexivity); vm_compute; discriminate.
Qed.

(** C4: the code at the failing input.  The claim has every assignment of a
    bare word to [_sfc_main] wrapped, words with digits included, and the
    source's comment has the [_sfc_main] export passed through [toNative].
    On a component whose class is named [Step2] the classifier returns true
    at the gate with 80 and the plugin puts the import line in front, but
    the identifier class [[A-Za-z]] of the pattern stops at the digit: the
    assignment comes back as it was and [toNative(Step2)] occurs nowhere in
    the output. *)
Theorem digit_identifier_is_left_unwrapped :
  exportsClassComponent_run case_Step2 = EarlyReturn 80
  /\ isClassComponent default_options case_Step2 = true
  /\ match_here re_sfc_main (js "const _sfc_main = Step2;") = None
  /\ transformedCode case_Step2 = case_Step2
  /\ pipeline case_Step2
     = ([LF] ++ js "import {toNative} from " ++ [dquote]
          ++ js "vue-facing-decorator" ++ [dquote] ++ js ";" ++ [LF])
         ++ case_Step2
  /\ Occurs (js "const _sfc_main = Step2;") (pipeline case_Step2)
  /\ ~ Occurs (js "toNative(Step2)") (pipeline case_Step2).
Proof.
  repeat split; try (vm_compute; reflexivity).
  - apply includes_spec. vm_compute. reflexivity.
  - intros H. apply includes_spec in H. vm_compute in H. discriminate H.
Qed.

(** C5: [passesPreflight] is false exactly when one of the three literals
    [type=style], [type=template], [toNative] occurs somewhere in the text,
    whatever else the text holds, and true otherwise. *)
Theorem passesPreflight_substrings code :
  (passesPreflight code = false <->
     Occurs (js "type=style") code \/ Occurs (js "type=template") code
     \/ Occurs (js "toNative") code)
  /\ (passesPreflight code = true <->
     ~ (Occurs (js "type=style") code \/ Occurs (js "type=template") code
        \/ Occurs (js "toNative") code)).
Proof.
  unfold passesPreflight. rewrite <- !includes_spec.
  destruct (includes code (js "type=style")),
    (includes code (js "type=template")), (includes code (js "toNative"));
    simpl; intuition (try discriminate; try congruence).
Qed.

(** C6: the verdict is [confidence > 50] at either return, so 50 gives false.
    A text with the library import, a class that extends something but no
    class that extends Vue, and a default export that starts neither with a
    brace, nor with [class], nor with a capital letter, is at 40 + 10 at the
    gate, at 51 after the first late check and at 50 after the second, and
    the function returns false; [case_B] is such a text. *)
Theorem fifty_is_rejected :
  (forall code,
     exportsClassComponent code
     = (confidence_at_return (exportsClassComponent_run code) >? 50)%Z)
  /\ (forall code,
        imports_library code -> extends_something code -> ~ extends_Vue code ->
        exports_not_object code -> exports_not_capital code ->
        exportsClassComponent_run code
        = FinalReturn (40 + 10) (40 + 10 + 1) (40 + 10 + 1 - 1)
        /\ exportsClassComponent code = false)
  /\ exportsClassComponent_run case_B = FinalReturn 50 51 50
  /\ exportsClassComponent case_B = false.
Proof.
  split; [|split; [|split; vm_compute; reflexivity]].
  - intros code. unfold exportsClassComponent. rewrite run_gate. cbv zeta.
    destruct (_ >? 50)%Z eqn:E; simpl; auto.
  - intros code H1 H2 H3 H4 H5.
    apply found_import in H1. apply found_extends in H2.
    rewrite <- found_extends_vue in H3. apply not_true_is_false in H3.
    apply found_export_not_object in H4. apply found_export_not_capital in H5.
    unfold exportsClassComponent. rewrite run_gate, H1, H2, H3, H4, H5.
    split; reflexivity.
Qed.

Lemma fifty_is_rejected_witness :
  exportsClassComponent_run case_B
  = FinalReturn (40 + 10) (40 + 10 + 1) (40 + 10 + 1 - 1)
  /\ exportsClassComponent case_B = false.
Proof.
  apply (proj1 (proj2 fifty_is_rejected) case_B).
  - exists (js "import { Component } "), (js " "), dquote, dquote,
      (js ";" ++ [LF] ++ js "class Foo extends Base {}" ++ [LF]
         ++ js "const exampleComponent = {};" ++ [LF]
         ++ js "export default exampleComponent;").
    repeat split; try reflexivity. discriminate.
  - exists (js "import { Component } from " ++ [dquote]
              ++ js "vue-facing-decorator" ++ [dquote] ++ js ";" ++ [LF]),
      (js " Foo "),
      (js " Base {}" ++ [LF] ++ js "const exampleComponent = {};" ++ [LF]
         ++ js "export default exampleComponent;").
    split; reflexivity.
  - intros H. apply found_extends_vue in H. vm_compute in H. discriminate H.
  - exists (js "import { Component } from " ++ [dquote]
              ++ js "vue-facing-decorator" ++ [dquote] ++ js ";" ++ [LF]
              ++ js "class Foo extends Base {}" ++ [LF]
              ++ js "const exampleComponent = {};" ++ [LF]),
      32%N, 32%N, (js "exampleComponent;").
    repeat split; try reflexivity. intros t; discriminate.
  - exists (js "import { Component } from " ++ [dquote]
              ++ js "vue-facing-decorator" ++ [dquote] ++ js ";" ++ [LF]
              ++ js "class Foo extends Base {}" ++ [LF]
              ++ js "const exampleComponent = {};" ++ [LF]),
      32%N, 32%N, (js "exampleComponent;").
    repeat split; try reflexivity.
    + intros t; discriminate.
    + intros c t E. injection E as <- _. reflexivity.
Defined.

(** C7: a text with the library import and a class that extends Vue reaches
    80 at the gate and returns true there, before the two late checks. *)
Theorem import_and_Vue_subclass code :
  imports_library code -> extends_Vue code ->
  exportsClassComponent_run code = EarlyReturn 80
  /\ exportsClassComponent code = true.
Proof.
  intros H1 H2. apply found_import in H1. apply found_extends_vue in H2.
  unfold exportsClassComponent. rewrite run_gate, H1, H2. split; reflexivity.
Qed.

Lemma import_and_Vue_subclass_witness :
  exportsClassComponent_run case_A = EarlyReturn 80
  /\ exportsClassComponent case_A = true.
Proof.
  apply (@import_and_Vue_subclass case_A).
  - exists (js "import { Component, Vue } "), (js " "), dquote, dquote,
      (js ";" ++ [LF] ++ js "class Foo extends Vue {}" ++ [LF]
         ++ js "export default Foo;").
    repeat split; try reflexivity. discriminate.
  - exists (js "import { Component, Vue } from " ++ [dquote]
              ++ js "vue-facing-decorator" ++ [dquote] ++ js ";" ++ [LF]),
      (js " Foo "), 32%N, (js " {}" ++ [LF] ++ js "export default Foo;").
    repeat split; reflexivity.
Defined.



(** C9: the starred class of the pattern accepts the empty word, so an
    assignment without a right-hand side is matched, with an empty capture,
    and wherever it stands it comes out as [const _sfc_main = toNative();]. *)
Theorem empty_identifier_is_wrapped options p t :
  isClassComponent options (p ++ js "const _sfc_main = ;" ++ t) = true ->
  match_here re_sfc_main (js "const _sfc_main = ;" ++ t)
  = Some (mkState t [(1%nat, [])])
  /\ handler options (p ++ js "const _sfc_main = ;" ++ t)
     = vueFacingImport ++ transformedCode p
         ++ js "const _sfc_main = toNative();" ++ transformedCode t
  /\ Occurs (js "const _sfc_main = toNative();")
       (handler options (p ++ js "const _sfc_main = ;" ++ t)).
Proof.
  intros H.
  assert (starts_assignment (js "const _sfc_main = ;" ++ t) [] t) as S
    by (exists sfc_prefix; repeat split; reflexivity).
  assert (handler options (p ++ js "const _sfc_main = ;" ++ t)
          = vueFacingImport ++ transformedCode p
              ++ js "const _sfc_main = toNative();" ++ transformedCode t) as E.
  { rewrite (handler_true _ _ H), (transformedCode_assignment p S).
    reflexivity. }
  split; [apply match_here_sfc; auto | split; auto].
  rewrite E. exists (vueFacingImport ++ transformedCode p), (transformedCode t).
  rewrite <- !app_assoc. reflexivity.
Qed.

Lemma empty_identifier_is_wrapped_witness :
  match_here re_sfc_main (js "const _sfc_main = ;" ++ [])
  = Some (mkState [] [(1%nat, [])])
  /\ handler accept_all ([] ++ js "const _sfc_main = ;" ++ [])
     = vueFacingImport ++ transformedCode []
         ++ js "const _sfc_main = toNative();" ++ transformedCode []
  /\ Occurs (js "const _sfc_main = toNative();")
       (handler accept_all ([] ++ js "const _sfc_main = ;" ++ [])).
Proof.
  apply (@empty_identifier_is_wrapped accept_all [] []). reflexivity.
Defined.

(** C10: with a caller's predicate that says true on a text and again on the
    handler's output, the second run puts a second import line in front of
    the first output, whatever that output already holds, so its result
    differs from the first; the default predicate never says true on the
    handler's output. *)
Theorem handler_twice_adds_import options t :
  isClassComponent options t = true ->
  isClassComponent options (handler options t) = true ->
  handler options (handler options t) = vueFacingImport ++ handler options t
  /\ handler options (handler options t) <> handler options t
  /\ isClassComponent default_options (handler options t) = false.
Proof.
  intros H1 H2.
  assert (handler options (handler options t)
          = vueFacingImport ++ handler options t) as E.
  { rewrite (handler_true _ _ H2), (handler_true _ _ H1).
    rewrite (transformedCode_inert _ first_at_import).
    rewrite transformedCode_idempotent. reflexivity. }
  split; [exact E | split].
  - rewrite E. intros C. apply (f_equal (@length _)) in C.
    rewrite length_app in C.
    assert (length vueFacingImport = 48) as L by reflexivity. lia.
  - rewrite (handler_true _ _ H1).
    unfold default_options; cbn [isClassComponent].
    rewrite preflight_rejects_output. reflexivity.
Qed.

Lemma handler_twice_adds_import_witness :
  handler accept_all (handler accept_all (js "const _sfc_main = Foo;"))
  = vueFacingImport ++ handler accept_all (js "const _sfc_main = Foo;")
  /\ handler accept_all (handler accept_all (js "const _sfc_main = Foo;"))
     <> handler accept_all (js "const _sfc_main = Foo;")
  /\ isClassComponent default_options
       (handler accept_all (js "const _sfc_main = Foo;")) = false.
Proof.
  apply (@handler_twice_adds_import accept_all (js "const _sfc_main = Foo;"));
    reflexivity.
Defined.

(** * Further properties of the classifier *)

Lemma imports_library_context pre code post :
  imports_library code -> imports_library (pre ++ code ++ post).
Proof.
  intros (p & ws & q1 & q2 & t & -> & H).
  exists (pre ++ p), ws, q1, q2, (t ++ post). split; auto.
  repeat (rewrite <- ?app_assoc; cbn [app]). reflexivity.
Qed.

Lemma extends_Vue_context pre code post :
  extends_Vue code -> extends_Vue (pre ++ code ++ post).
Proof.
  intros (p & mid & w & t & -> & H).
  exists (pre ++ p), mid, w, (t ++ post). split; auto.
  repeat (rewrite <- ?app_assoc; cbn [app]). reflexivity.
Qed.

Lemma extends_Vue_something code : extends_Vue code -> extends_something code.
Proof.
  intros (p & mid & w & t & -> & H & _).
  exists p, mid, (w :: js "Vue" ++ t). split; auto.
Qed.

(** X1: the verdict in terms of the text.  The function says true exactly
    when the text imports from the library and either holds a class that
    extends Vue, or holds a class that extends something, a default export
    not followed by a brace, and no default export followed by something
    other than [class] or a capital letter. *)
Theorem exportsClassComponent_exactly code :
  exportsClassComponent code = true <->
  imports_library code
  /\ (extends_Vue code
      \/ (extends_something code /\ exports_not_object code
          /\ ~ exports_not_capital code)).
Proof.
  rewrite <- found_import, <- found_extends_vue, <- found_extends,
    <- found_export_not_object, <- found_export_not_capital.
  unfold exportsClassComponent. rewrite run_gate.
  destruct (found code re_import), (found code re_extends_vue),
    (found code re_extends), (found code re_export_not_object),
    (found code re_export_not_capital); simpl;
    intuition (try discriminate; try congruence).
Qed.

(** X2: the early return is taken exactly when the text imports from the
    library and holds a class that extends Vue, and the score is then 80;
    in every other case the score at the gate is 0, 10, 40 or 50. *)
Theorem early_return_exactly code :
  (exportsClassComponent_run code = EarlyReturn 80 <->
     imports_library code /\ extends_Vue code)
  /\ (forall c, exportsClassComponent_run code = EarlyReturn c -> c = 80%Z)
  /\ (forall g a f,
        exportsClassComponent_run code = FinalReturn g a f ->
        In g [0; 10; 40; 50]%Z
        /\ (g = 50%Z <->
            imports_library code /\ extends_something code
            /\ ~ extends_Vue code)).
Proof.
  pose proof (found_import code) as I.
  pose proof (found_extends_vue code) as V.
  pose proof (found_extends code) as S.
  rewrite run_gate.
  destruct (found code re_import), (found code re_extends_vue),
    (found code re_extends); simpl;
    (split; [|split]);
    try (intros c E; inversion E; reflexivity);
    try (intros g a f E; inversion E; subst; simpl);
    intuition (try discriminate; try congruence; try lia).
Qed.

Lemma early_return_exactly_witness :
  (imports_library case_A /\ extends_Vue case_A)
  /\ In 50%Z [0; 10; 40; 50]%Z
  /\ (50%Z = 50%Z <->
      imports_library case_B /\ extends_something case_B
      /\ ~ extends_Vue case_B).
Proof.
  split.
  - apply (proj1 (early_return_exactly case_A)). vm_compute. reflexivity.
  - apply (proj2 (proj2 (early_return_exactly case_B)) 50 51 50)%Z.
    vm_compute. reflexivity.
Defined.

(** X3: the range of the score.  Past the gate the first late check adds 0
    or 1 and the second takes away 0 or 1, so the score at the last
    statement lies between -1 and 51, and the score at either return between
    -1 and 80. *)
Theorem confidence_bounds code :
  (-1 <= confidence_at_return (exportsClassComponent_run code) <= 80)%Z
  /\ match exportsClassComponent_run code with
     | EarlyReturn c => c = 80%Z
     | FinalReturn g a f =>
         (0 <= g <= 50 /\ g <= a <= g + 1 /\ a - 1 <= f <= a
          /\ -1 <= f <= 51)%Z
     end.
Proof.
  rewrite run_gate.
  destruct (found code re_import), (found code re_extends_vue),
    (found code re_extends), (found code re_export_not_object),
    (found code re_export_not_capital); simpl; lia.
Qed.

(** X4: the early return is only a shortcut: the verdict is the same as
    evaluating all four checks and comparing the total with 50. *)
Theorem early_return_is_shortcut code :
  exportsClassComponent code = (confidence_without_gate code >? 50)%Z.
Proof.
  unfold exportsClassComponent, confidence_without_gate. rewrite run_gate.
  destruct (found code re_import), (found code re_extends_vue),
    (found code re_extends), (found code re_export_not_object),
    (found code re_export_not_capital); reflexivity.
Qed.

(** X5: the late checks tip the scales.  A text with the library import, a
    class that extends something other than Vue, a default export not
    followed by a brace and no default export followed by something other
    than [class] or a capital letter is at 50 at the gate, at 51 afterwards,
    and the function returns true. *)
Theorem capital_export_tips_the_scales code :
  imports_library code -> extends_something code -> ~ extends_Vue code ->
  exports_not_object code -> ~ exports_not_capital code ->
  exportsClassComponent_run code = FinalReturn 50 51 51
  /\ exportsClassComponent code = true.
Proof.
  intros H1 H2 H3 H4 H5.
  apply found_import in H1. apply found_extends in H2.
  rewrite <- found_extends_vue in H3. apply not_true_is_false in H3.
  apply found_export_not_object in H4.
  rewrite <- found_export_not_capital in H5. apply not_true_is_false in H5.
  unfold exportsClassComponent. rewrite run_gate, H1, H2, H3, H4, H5.
  split; reflexivity.
Qed.

Lemma capital_export_tips_the_scales_witness :
  exportsClassComponent_run case_b_class = FinalReturn 50 51 51
  /\ exportsClassComponent case_b_class = true.
Proof.
  apply (@capital_export_tips_the_scales case_b_class).
  - apply found_import. vm_compute. reflexivity.
  - apply found_extends. vm_compute. reflexivity.
  - intros H. apply found_extends_vue in H. vm_compute in H. discriminate H.
  - apply found_export_not_object. vm_compute. reflexivity.
  - intros H. apply found_export_not_capital in H. vm_compute in H.
    discriminate H.
Defined.

(** X6: a default export of an object literal costs a point.  When every
    default export of the text is followed by a brace and there is one, then
    past the gate the first late check adds nothing and the second takes 1
    away, so the function returns false there; it returns true only by the
    early return, that is, exactly when the text also has the library
    import and a class that extends Vue. *)
Theorem object_export_loses_a_point code :
  ~ exports_not_object code -> exports_not_capital code ->
  (exportsClassComponent code = true <->
     imports_library code /\ extends_Vue code)
  /\ (exportsClassComponent code = true <->
      exportsClassComponent_run code = EarlyReturn 80)
  /\ (forall g a f,
        exportsClassComponent_run code = FinalReturn g a f ->
        a = g /\ f = (g - 1)%Z /\ exportsClassComponent code = false).
Proof.
  intros H1 H2.
  rewrite <- found_export_not_object in H1. apply not_true_is_false in H1.
  apply found_export_not_capital in H2.
  rewrite <- found_import, <- found_extends_vue.
  unfold exportsClassComponent. rewrite run_gate, H1, H2. cbv zeta.
  destruct (found code re_import), (found code re_extends_vue),
    (found code re_extends); simpl;
    (split; [|split]);
    try (intros g a f E; inversion E; subst; repeat split; reflexivity);
    intuition (try discriminate; try congruence).
Qed.

Lemma object_export_loses_a_point_witness :
  (0%Z = 0%Z /\ (-1)%Z = (0 - 1)%Z
   /\ exportsClassComponent object_default = false)
  /\ exportsClassComponent case_A_with_object = true.
Proof.
  split.
  - assert (~ exports_not_object object_default) as H1.
    { intros H. apply found_export_not_object in H. vm_compute in H.
      discriminate H. }
    assert (exports_not_capital object_default) as H2
      by (apply found_export_not_capital; vm_compute; reflexivity).
    apply (proj2 (proj2 (object_export_loses_a_point H1 H2)) 0 0 (-1))%Z.
    vm_compute. reflexivity.
  - assert (~ exports_not_object case_A_with_object) as H1.
    { intros H. apply found_export_not_object in H. vm_compute in H.
      discriminate H. }
    assert (exports_not_capital case_A_with_object) as H2
      by (apply found_export_not_capital; vm_compute; reflexivity).
    apply (proj1 (object_export_loses_a_point H1 H2)).
    split; [apply found_import | apply found_extends_vue];
      vm_compute; reflexivity.
Defined.

(** X7: the early verdict does not depend on the surroundings: when the
    function returns at the gate on a text, it does so on every text that
    holds it. *)
Theorem early_return_in_context code c pre post :
  exportsClassComponent_run code = EarlyReturn c ->
  exportsClassComponent_run (pre ++ code ++ post) = EarlyReturn 80
  /\ exportsClassComponent (pre ++ code ++ post) = true.
Proof.
  intros E.
  assert (imports_library code /\ extends_Vue code) as [H1 H2].
  { rewrite <- found_import, <- found_extends_vue. rewrite run_gate in E.
    destruct (found code re_import), (found code re_extends_vue),
      (found code re_extends); simpl in E; try discriminate E; auto. }
  apply (imports_library_context pre post) in H1.
  apply (extends_Vue_context pre post) in H2.
  apply found_import in H1. apply found_extends_vue in H2.
  unfold exportsClassComponent. rewrite run_gate, H1, H2. split; reflexivity.
Qed.

Lemma early_return_in_context_witness :
  exportsClassComponent_run (js "// generated" ++ case_A ++ js "export default {}")
  = EarlyReturn 80
  /\ exportsClassComponent (js "// generated" ++ case_A ++ js "export default {}")
     = true.
Proof.
  apply (@early_return_in_context case_A 80%Z). vm_compute. reflexivity.
Defined.

Lemma exportsClassComponent_false_without code :
  ~ imports_library code \/ ~ extends_something code ->
  exportsClassComponent code = false.
Proof.
  rewrite <- found_import, <- found_extends.
  pose proof (found_extends_vue code) as V.
  pose proof (found_extends code) as S.
  pose proof (@extends_Vue_something code) as VS.
  unfold exportsClassComponent. rewrite run_gate.
  destruct (found code re_import), (found code re_extends_vue),
    (found code re_extends), (found code re_export_not_object),
    (found code re_export_not_capital); simpl; auto;
    intuition (try discriminate; try congruence).
Qed.

(** X8: the conditions of the other checks, read on the text.  The import
    check holds exactly when the text holds [from], one or more white-space
    units (line ends included), a single or double quote,
    [vue-facing-decorator] and a single or double quote, and the two quotes
    need not be the same.  The first subclass check holds exactly when
    [class] is followed on the same line by [extends], one white-space unit
    and [Vue]; the second exactly when [class] is followed on the same line
    by [extends]; the first implies the second, so the 10 of the else
    branch is added exactly when a class extends something and none extends
    Vue.  The second late check holds exactly when [export], one white-space
    unit, [default] and one white-space unit are followed by something that
    starts neither with [class] nor with a capital ASCII letter. *)
Theorem checks_read code :
  (found code re_import = true <-> imports_library code)
  /\ (found code re_extends_vue = true <-> extends_Vue code)
  /\ (found code re_extends = true <-> extends_something code)
  /\ (extends_Vue code -> extends_something code)
  /\ ((found code re_extends_vue = false /\ found code re_extends = true) <->
      extends_something code /\ ~ extends_Vue code)
  /\ (found code re_export_not_capital = true <-> exports_not_capital code).
Proof.
  pose proof (found_extends_vue code) as V.
  pose proof (found_extends code) as S.
  split; [apply found_import|]. split; [exact V|]. split; [exact S|].
  split; [apply extends_Vue_something|].
  split; [|apply found_export_not_capital]. split.
  - intros [H1 H2]. split; [apply S; auto|].
    intros C. apply V in C. congruence.
  - intros [H1 H2]. split; [|apply S; auto].
    apply not_true_is_false. intros C. apply V in C. tauto.
Qed.

Lemma checks_read_witness :
  extends_something case_A
  /\ (extends_something case_B /\ ~ extends_Vue case_B).
Proof.
  destruct (checks_read case_A) as (_ & VA & _ & IA & _).
  destruct (checks_read case_B) as (_ & _ & _ & _ & [TB _] & _).
  split.
  - apply IA. apply VA. vm_compute. reflexivity.
  - apply TB. split; vm_compute; reflexivity.
Defined.

(** * Further properties of the preflight filter and of the handler *)

Lemma Occurs_context sub pre s post :
  Occurs sub s -> Occurs sub (pre ++ s ++ post).
Proof.
  intros (a & b & ->). exists (pre ++ a), (b ++ post).
  rewrite <- !app_assoc. reflexivity.
Qed.

Lemma passesPreflight_markers code :
  passesPreflight code = true <-> forall mk, In mk markers -> ~ Occurs mk code.
Proof.
  unfold passesPreflight, markers. rewrite !andb_true_iff, !negb_true_iff.
  split.
  - intros [[H1 H2] H3] mk [<-|[<-|[<-|[]]]] C; apply includes_spec in C;
      congruence.
  - intros H. repeat split; apply not_true_is_false; intros C;
      apply includes_spec in C; eapply H; eauto; simpl; auto.
Qed.

(** X9: a text that passes the preflight filter has no piece that fails it:
    whatever is cut out of an accepted text is accepted too. *)
Theorem passesPreflight_pieces pre s post :
  passesPreflight (pre ++ s ++ post) = true -> passesPreflight s = true.
Proof.
  rewrite !passesPreflight_markers. intros H mk Hm C.
  apply (H mk Hm). apply Occurs_context. exact C.
Qed.

Lemma passesPreflight_pieces_witness : passesPreflight (js "class Foo") = true.
Proof.
  apply (@passesPreflight_pieces (js "// a ") (js "class Foo") (js " {}")).
  reflexivity.
Defined.

(** X10: the plugin built without options never touches a style block, a
    template block or a text that already names the wrapper: a text in which
    one of the three markers occurs comes back as it was. *)
Theorem pipeline_skips_marked mk code :
  In mk markers -> Occurs mk code -> pipeline code = code.
Proof.
  intros Hm C. unfold pipeline, pluginVfd, transform.
  apply handler_false. unfold default_options; cbn [isClassComponent].
  destruct (passesPreflight code) eqn:E; auto.
  elim (proj1 (passesPreflight_markers code) E mk Hm C).
Qed.

Lemma pipeline_skips_marked_witness :
  pipeline (js "<style type=style>" ++ case_A) = js "<style type=style>" ++ case_A.
Proof.
  apply (@pipeline_skips_marked (js "type=style")).
  - simpl. auto.
  - exists (js "<style "), (js ">" ++ case_A). reflexivity.
Defined.

(** X11: the plugin built without options never touches a text without the
    library import, nor one without a class that extends something. *)
Theorem pipeline_skips_unrelated code :
  ~ imports_library code \/ ~ extends_something code ->
  exportsClassComponent code = false /\ pipeline code = code.
Proof.
  intros H.
  pose proof (exportsClassComponent_false_without H) as E.
  split; auto. unfold pipeline, pluginVfd, transform.
  apply handler_false. unfold default_options; cbn [isClassComponent].
  rewrite E. apply andb_false_r.
Qed.

Lemma pipeline_skips_unrelated_witness :
  exportsClassComponent (js "class Foo extends Vue {} export default Foo;")
  = false
  /\ pipeline (js "class Foo extends Vue {} export default Foo;")
     = js "class Foo extends Vue {} export default Foo;".
Proof.
  apply (@pipeline_skips_unrelated
           (js "class Foo extends Vue {} export default Foo;")).
  left. intros H. apply found_import in H. vm_compute in H. discriminate H.
Defined.

(** * Further properties of the rewriter *)

Lemma wrapped_length X : length (wrapped X) = 29 + length X.
Proof. unfold wrapped. rewrite !length_app. simpl. lia. Qed.

Lemma Rewritten_length s out : Rewritten s out -> length s <= length out.
Proof.
  induction 1 as [|pre post X t out _ H _ IH]; auto.
  rewrite !length_app, wrapped_length, (starts_assignment_length H). lia.
Qed.

Lemma transformedCode_length s : length s <= length (transformedCode s).
Proof. apply Rewritten_length, transformedCode_Rewritten. Qed.

Lemma transformedCode_fixed s : transformedCode s = s <-> no_assignment s.
Proof.
  split; [|apply transformedCode_unmatched].
  destruct (first_assignment s) as [N|(pre & post & X & t & -> & U & H)]; auto.
  intros E. rewrite (transformedCode_first U H) in E.
  apply (f_equal (@length _)) in E.
  rewrite !length_app, wrapped_length, (starts_assignment_length H) in E.
  pose proof (transformedCode_length t). lia.
Qed.

(** X12: the rewriter leaves no assignment behind: in its output the pattern
    matches nowhere, so a second pass changes nothing. *)
Theorem transformedCode_settles s :
  no_assignment (transformedCode s)
  /\ exec re_sfc_main (transformedCode s) = None
  /\ transformedCode (transformedCode s) = transformedCode s.
Proof.
  pose proof (Rewritten_no_assignment (transformedCode_Rewritten s)) as N.
  split; [exact N | split].
  - apply exec_sfc_None. exact N.
  - apply transformedCode_idempotent.
Qed.

(** X13: the rewriter only adds: its output is never shorter than the input,
    and it is the input itself exactly when no assignment starts anywhere in
    the text. *)
Theorem transformedCode_only_adds s :
  length s <= length (transformedCode s)
  /\ (transformedCode s = s <-> no_assignment s)
  /\ (transformedCode s = s <-> exec re_sfc_main s = None).
Proof.
  split; [apply transformedCode_length | split].
  - apply transformedCode_fixed.
  - rewrite exec_sfc_None. apply transformedCode_fixed.
Qed.

(** X14: the handler changes a text exactly when the predicate accepts it,
    and then the output is at least the 48 units of the import line longer
    than the input. *)
Theorem handler_changes_when_accepted options code :
  (handler options code = code <-> isClassComponent options code = false)
  /\ (isClassComponent options code = true ->
        length code + 48 <= length (handler options code)).
Proof.
  assert (isClassComponent options code = true ->
          length code + 48 <= length (handler options code)) as L.
  { intros H. rewrite (handler_true _ _ H), length_app.
    pose proof (transformedCode_length code).
    assert (length vueFacingImport = 48) as E by reflexivity. lia. }
  split; auto. split; [|apply handler_false].
  destruct (isClassComponent options code) eqn:E; auto.
  intros C. specialize (L eq_refl). rewrite C in L. lia.
Qed.

Lemma handler_changes_when_accepted_witness :
  length (js "let x;") + 48 <= length (handler accept_all (js "let x;")).
Proof.
  apply (proj2 (handler_changes_when_accepted accept_all (js "let x;"))).
  reflexivity.
Defined.

(** X15: the file test of the transform descriptor accepts exactly the paths
    that end in [.vue], in lower case and with nothing behind it. *)
Theorem vue_file_test path :
  (forall options, test (pluginVfd options) = re_vue_file)
  /\ (found path re_vue_file = true <-> exists stem, path = stem ++ js ".vue").
Proof.
  split; [reflexivity|].
  rewrite found_spec. unfold re_vue_file. cbn [Matches source ignoreCase].
  split.
  - intros (pre & post & st & -> & m1 & H1 & -> & H2).
    apply Matches_lit in H1 as [E1 _]. cbn [ahead] in E1.
    rewrite H2, app_nil_r in E1. subst post. eauto.
  - intros (stem & ->).
    exists stem, (js ".vue"), (mkState [] []). split; auto.
    exists (mkState [] []). split; [apply Matches_lit; auto|]. split; auto.
Qed.

(** X16: when the plugin built without options fires.  It changes a text
    exactly when none of the three markers occurs in it, it imports from the
    library, and it holds a class that extends Vue or else a class that
    extends something with a default export that tips the score to 51; the
    output is then the import line followed by the rewritten text. *)
Theorem pipeline_fires_exactly code :
  (pipeline code <> code <->
     (forall mk, In mk markers -> ~ Occurs mk code)
     /\ imports_library code
     /\ (extends_Vue code
         \/ (extends_something code /\ exports_not_object code
             /\ ~ exports_not_capital code)))
  /\ (pipeline code <> code ->
        pipeline code = vueFacingImport ++ transformedCode code).
Proof.
  rewrite <- passesPreflight_markers.
  rewrite <- found_import, <- found_extends_vue, <- found_extends,
    <- found_export_not_object, <- found_export_not_capital.
  assert (exportsClassComponent code = true <->
          found code re_import = true
          /\ (found code re_extends_vue = true
              \/ (found code re_extends = true
                  /\ found code re_export_not_object = true
                  /\ found code re_export_not_capital <> true))) as R.
  { unfold exportsClassComponent. rewrite run_gate.
    destruct (found code re_import), (found code re_extends_vue),
      (found code re_extends), (found code re_export_not_object),
      (found code re_export_not_capital); simpl;
      intuition (try discriminate; try congruence). }
  rewrite <- R. clear R.
  unfold pipeline, pluginVfd, transform.
  assert (isClassComponent default_options code
          = passesPreflight code && exportsClassComponent code) as D
    by reflexivity.
  destruct (isClassComponent default_options code) eqn:E.
  - symmetry in D. apply andb_true_iff in D as [D1 D2].
    rewrite (handler_true _ _ E). split; [|reflexivity].
    split; [auto|]. intros _ C. apply (f_equal (@length _)) in C.
    rewrite length_app in C. pose proof (transformedCode_length code).
    assert (length vueFacingImport = 48) as L by reflexivity. lia.
  - rewrite (handler_false _ _ E). split; [|congruence].
    split; [congruence|]. intros [D1 D2]. rewrite D1, D2 in D. discriminate D.
Qed.

Lemma pipeline_fires_exactly_witness :
  pipeline case_A = vueFacingImport ++ transformedCode case_A.
Proof.
  apply (proj2 (pipeline_fires_exactly case_A)).
  vm_compute. discriminate.
Defined.
